(** * redux-responsive: the responsive-state reducer

    A shallow embedding of [src/util/createResponsiveStateReducer.js] and the
    properties of its breakpoint ordering, its comparison maps, its media-type
    resolver and its reducer.

    JavaScript is dynamically typed and the module mutates an object it shares
    with its caller, so the embedding has three layers:
    - [value]: the dynamic values the module inspects with [typeof],
      truthiness and the relational operators;
    - [obj] and [heap]: plain objects as ordered property lists, stored in a
      heap and named by references, so that identity and in-place mutation
      are visible;
    - the functions of the module, in the order of the source file. *)

From Stdlib Require Import QArith ZArith Lia List String Ascii DecimalString Sorted.
From stdpp Require Import base list sorting.
Import ListNotations.
Local Open Scope string_scope.
Local Open Scope list_scope.

(** ** Numbers

    A JavaScript number is a double.  The module never computes with numbers:
    it only compares them ([<], [>], [>=]) and tests them for truthiness.
    Finite doubles are compared by their value, so a finite number is kept as
    the rational it denotes; the two infinities and NaN are separate.  The
    two zeros of a double compare equal and are both falsy, so one zero
    stands for both. *)
Inductive number : Type :=
  | NaN
  | NegInf
  | Fin (q : Q)
  | PosInf.

(** [x < y] on numbers; [None] is the "undefined" outcome of the relational
    comparison, reached exactly when an operand is NaN. *)
Definition num_lt (x y : number) : option bool :=
  match x, y with
  | NaN, _ | _, NaN => None
  | Fin a, Fin b => Some (negb (Qle_bool b a))
  | NegInf, NegInf => Some false
  | NegInf, _ => Some true
  | _, NegInf => Some false
  | PosInf, _ => Some false
  | _, PosInf => Some true
  end.

(** The index [i] of an array, as the number [indexOf] returns. *)
Definition index_number (i : nat) : number := Fin (inject_Z (Z.of_nat i)).

(** ** Values *)

Abbreviation loc := nat.

(** Primitive values (symbols and bigints are not modelled). *)
Inductive prim : Type :=
  | PUndef
  | PNull
  | PBool (b : bool)
  | PNum (n : number)
  | PStr (s : string).

(** A value is a primitive or a reference to a plain object of the heap
    (functions and arrays are not values of the model). *)
Inductive value : Type :=
  | VPrim (p : prim)
  | VRef (l : loc).

Coercion VPrim : prim >-> value.

Abbreviation VUndef := (VPrim PUndef).
Abbreviation VNull := (VPrim PNull).
Abbreviation VBool b := (VPrim (PBool b)).
Abbreviation VNum n := (VPrim (PNum n)).
Abbreviation VStr s := (VPrim (PStr s)).

(** The result of [typeof], as far as the module distinguishes it. *)
Inductive jstype : Type := TUndefined | TObject | TBoolean | TNumber | TString.

Definition typeof (v : value) : jstype :=
  match v with
  | VPrim PUndef => TUndefined
  | VPrim PNull => TObject
  | VPrim (PBool _) => TBoolean
  | VPrim (PNum _) => TNumber
  | VPrim (PStr _) => TString
  | VRef _ => TObject
  end.

Definition jstype_eqb (a b : jstype) : bool :=
  match a, b with
  | TUndefined, TUndefined | TObject, TObject | TBoolean, TBoolean
  | TNumber, TNumber | TString, TString => true
  | _, _ => false
  end.

(** ToBoolean. *)
Definition truthy (v : value) : bool :=
  match v with
  | VPrim PUndef | VPrim PNull => false
  | VPrim (PBool b) => b
  | VPrim (PNum NaN) => false
  | VPrim (PNum (Fin q)) => negb (Qeq_bool q 0)
  | VPrim (PNum _) => true
  | VPrim (PStr s) => negb (String.eqb s "")
  | VRef _ => true
  end.

(** ** Objects and the heap

    A plain object is the list of its own enumerable properties in the order
    [Object.keys] lists them; a well-formed object has no name twice.
    Inherited properties are not modelled.  Strings are compared as lists of
    character codes.  The heap is the list of the objects allocated so far,
    and a reference is a position in it. *)
Definition obj := list (string * value).
Abbreviation heap := (list obj).

Definition keys (o : obj) : list string := map fst o.

Fixpoint obj_lookup (k : string) (o : obj) : option value :=
  match o with
  | [] => None
  | (k', v) :: o' => if String.eqb k k' then Some v else obj_lookup k o'
  end.

(** [o[k]]: a missing property reads as [undefined]. *)
Definition obj_get (o : obj) (k : string) : value :=
  match obj_lookup k o with Some v => v | None => VUndef end.

(** An array index is the canonical decimal name of an integer below
    [2^32 - 1].  Engines enumerate such property names first, in ascending
    numeric order, and all other names after them in insertion order. *)
Definition digit_of (c : ascii) : option N :=
  let n := N_of_ascii c in
  if ((48 <=? n) && (n <=? 57))%N then Some (n - 48)%N else None.

Fixpoint parse_digits (s : string) (acc : N) : option N :=
  match s with
  | EmptyString => Some acc
  | String c s' =>
      match digit_of c with
      | Some d => parse_digits s' (10 * acc + d)%N
      | None => None
      end
  end.

Definition array_index (k : string) : option N :=
  match k with
  | EmptyString => None
  | String "0" EmptyString => Some 0%N
  | String "0" _ => None
  | _ =>
      match parse_digits k 0 with
      | Some n => if (n <? 2 ^ 32 - 1)%N then Some n else None
      | None => None
      end
  end.

Definition has_key (k : string) (o : obj) : bool :=
  match obj_lookup k o with Some _ => true | None => false end.

(** Overwrite the value of an existing property, keeping its place. *)
Fixpoint obj_replace (k : string) (v : value) (o : obj) : obj :=
  match o with
  | [] => []
  | (k', v') :: o' =>
      if String.eqb k k' then (k, v) :: o' else (k', v') :: obj_replace k v o'
  end.

(** Add a new array-index property [k] (of index [n]) among the indices. *)
Fixpoint obj_insert_index (n : N) (k : string) (v : value) (o : obj) : obj :=
  match o with
  | [] => [(k, v)]
  | (k', v') :: o' =>
      match array_index k' with
      | Some n' =>
          if (n' <? n)%N then (k', v') :: obj_insert_index n k v o'
          else (k, v) :: o
      | None => (k, v) :: o
      end
  end.

(** [o[k] = v]. *)
Definition obj_set (k : string) (v : value) (o : obj) : obj :=
  if has_key k o then obj_replace k v o
  else match array_index k with
       | Some n => obj_insert_index n k v o
       | None => o ++ [(k, v)]
       end.

Definition alloc (h : heap) (o : obj) : loc * heap := (length h, h ++ [o]).

(** The own enumerable properties that an object spread [{...v}] copies:
    those of the object when [v] is a reference, the characters of a string
    under their indices, and nothing for the other primitives.  [None] when
    the reference is not in the heap. *)
Fixpoint string_props (i : nat) (s : string) : obj :=
  match s with
  | EmptyString => []
  | String c s' =>
      (NilZero.string_of_uint (Nat.to_uint i), VStr (String c EmptyString))
        :: string_props (S i) s'
  end.

Definition own_props (h : heap) (v : value) : option obj :=
  match v with
  | VRef l => h !! l
  | VPrim (PStr s) => Some (string_props 0 s)
  | VPrim _ => Some []
  end.

(** [{...target, ...source}], given the properties of the source. *)
Definition assign (target source : obj) : obj :=
  fold_left (fun t kv => obj_set (fst kv) (snd kv) t) source target.

(** ** lodash

    [transform(object, iteratee)] on a plain object starts from a new empty
    object and calls [iteratee(result, value, key)] for every own enumerable
    property in [Object.keys] order; the callbacks of this module return
    nothing, so no call ends the iteration early.  The callback mutates
    [result]; here it returns the mutated object. *)
Definition transform (o : obj) (iteratee : obj -> value -> string -> obj) : obj :=
  fold_left (fun result kv => iteratee result (snd kv) (fst kv)) o [].

(** [reduce(collection, iteratee, accumulator)] on a plain object (one that
    is not array-like): [iteratee(result, value, key)] for every own
    enumerable property in [Object.keys] order. *)
Definition reduce {A : Type} (collection : obj)
    (iteratee : A -> value -> string -> A) (accumulator : A) : A :=
  fold_left (fun result kv => iteratee result (snd kv) (fst kv))
    collection accumulator.

(** ** Array.prototype.sort and indexOf

    ECMAScript fixes the result of [sort] only when the comparator is a
    consistent ordering of the elements: then every engine returns the same
    array.  Otherwise (here: two equal values, or a NaN) the order depends on
    the engine.  The model is the insertion sort V8 ran on short arrays when
    the module was written: each element in turn moves left past every
    element [tmp] of the sorted prefix with [comparefn(tmp, element) > 0].
    The prefix is kept reversed so that the element enters it from its right
    end. *)
Fixpoint sort_insert (comparefn : string -> string -> Z) (element : string)
    (prefix_rev : list string) : list string :=
  match prefix_rev with
  | [] => [element]
  | tmp :: rest =>
      if (0 <? comparefn tmp element)%Z
      then tmp :: sort_insert comparefn element rest
      else element :: prefix_rev
  end.

Definition array_sort (comparefn : string -> string -> Z) (a : list string)
    : list string :=
  rev (fold_left (fun prefix_rev x => sort_insert comparefn x prefix_rev) a []).

(** [a.indexOf(x)]; [None] stands for [-1]. *)
Fixpoint indexOf (x : string) (a : list string) : option nat :=
  match a with
  | [] => None
  | y :: a' => if String.eqb x y then Some 0 else S <$> indexOf x a'
  end.

(** ** What the module takes from outside

    Two conversions of the language are left abstract: the primitive an
    object converts to when it is compared (its [valueOf]/[toString]), and
    the number a string denotes.  The relational operators reach them only
    when an operand is an object, or when a string meets a non-string. *)
Class Engine : Type := {
  ToPrimitive : loc -> prim;
  StringToNumber : string -> number
}.

(** The imports of the source file: [MediaQuery.asObject] of the mediaquery
    package, taken as a function of the properties of its argument, and the
    action type the default export compares with. *)
Class Imports : Type := {
  MediaQuery_asObject : obj -> obj;
  CALCULATE_RESPONSIVE_STATE : string
}.

(** The evaluator an action may carry: the [matches] field of
    [matchMedia(query)]. *)
Definition evaluator := value -> value.

Record options : Type := {
  initialMediaType : option string;
  infinity : option string;
  extraFields : option (heap -> value -> value * heap)
}.

(** What the reducer returned by the factory has captured. *)
Record closure : Type := {
  c_breakpoints : loc;
  c_initialMediaType : option string;
  c_infinity : string;
  c_extraFields : heap -> value -> value * heap;
  c_mediaQueries : obj;
  c_mediaOrdering : obj
}.

(** [export const defaultBreakpoints]: one object of the module, at a fixed
    place of the heap. *)
Definition defaultBreakpoints : obj :=
  [ ("extraSmall", VNum (Fin 480)); ("small", VNum (Fin 768));
    ("medium", VNum (Fin 992)); ("large", VNum (Fin 1200)) ].
Definition defaultBreakpoints_loc : loc := 0.
Definition module_heap : heap := [defaultBreakpoints].

Definition defaultMediaType : string := "infinity".
Definition defaultOrientation : value := VNull.

Section Module.
Context {engine : Engine} {imports : Imports}.

(** *** Relational operators *)

Definition ToNumber (p : prim) : number :=
  match p with
  | PUndef => NaN
  | PNull => Fin 0
  | PBool true => Fin 1
  | PBool false => Fin 0
  | PNum n => n
  | PStr s => StringToNumber s
  end.

Definition to_primitive (v : value) : prim :=
  match v with
  | VPrim p => p
  | VRef l => ToPrimitive l
  end.

(** The abstract relational comparison [a < b]: two strings are compared
    character by character, anything else as numbers. *)
Definition js_lt_opt (a b : value) : option bool :=
  match to_primitive a, to_primitive b with
  | PStr s, PStr t => Some (String.ltb s t)
  | pa, pb => num_lt (ToNumber pa) (ToNumber pb)
  end.

Definition js_lt (a b : value) : bool :=
  match js_lt_opt a b with Some r => r | None => false end.

Definition js_gt (a b : value) : bool := js_lt b a.

Definition js_ge (a b : value) : bool :=
  match js_lt_opt a b with Some false => true | _ => false end.

(** [a === b]. *)
Definition strict_eq (a b : value) : bool :=
  match a, b with
  | VPrim PUndef, VPrim PUndef | VPrim PNull, VPrim PNull => true
  | VPrim (PBool x), VPrim (PBool y) => Bool.eqb x y
  | VPrim (PNum (Fin x)), VPrim (PNum (Fin y)) => Qeq_bool x y
  | VPrim (PNum NegInf), VPrim (PNum NegInf) => true
  | VPrim (PNum PosInf), VPrim (PNum PosInf) => true
  | VPrim (PStr s), VPrim (PStr t) => String.eqb s t
  | VRef l, VRef m => Nat.eqb l m
  | _, _ => false
  end.

(** *** getOrderMap *)

(** The comparator handed to [sort]. *)
Definition compare_keys (bps : obj) (a b : string) : Z :=
  let valueA := obj_get bps a in
  let valueB := obj_get bps b in
  if jstype_eqb (typeof valueA) TNumber && jstype_eqb (typeof valueB) TString
  then (-1)%Z
  else if jstype_eqb (typeof valueB) TNumber && jstype_eqb (typeof valueA) TString
  then 1%Z
  else if js_ge valueA valueB then 1%Z else (-1)%Z.

Definition getOrderMap (bps : obj) : obj :=
  let keys := array_sort (compare_keys bps) (keys bps) in
  transform bps (fun result breakpoint mediaType =>
    match indexOf mediaType keys with
    | Some index => obj_set mediaType (VNum (index_number index)) result
    | None => result
    end).

(** *** getLessThan, getIs, getGreaterThan *)

Definition getLessThan (currentMediaType : string) (breakpointOrder : obj) : obj :=
  let currentOrder := obj_get breakpointOrder currentMediaType in
  transform breakpointOrder (fun result breakpoint mediaType =>
    if jstype_eqb (typeof breakpoint) TNumber
       && truthy (obj_get breakpointOrder mediaType)
    then obj_set mediaType
           (VBool (js_lt currentOrder (obj_get breakpointOrder mediaType))) result
    else obj_set mediaType (VBool false) result).

Definition getIs (currentMediaType : string) (breakpoints : obj) : obj :=
  transform breakpoints (fun result breakpoint mediaType =>
    if jstype_eqb (typeof breakpoint) TNumber
       && truthy (obj_get breakpoints mediaType)
    then obj_set mediaType (VBool (String.eqb mediaType currentMediaType)) result
    else obj_set mediaType (VBool false) result).

Definition getGreaterThan (currentMediaType : string) (breakpointOrder : obj) : obj :=
  let currentOrder := obj_get breakpointOrder currentMediaType in
  transform breakpointOrder (fun result breakpoint mediaType =>
    if jstype_eqb (typeof breakpoint) TNumber
    then obj_set mediaType
           (VBool (js_gt currentOrder (obj_get breakpointOrder mediaType))) result
    else obj_set mediaType (VBool false) result).

(** *** getMediaType, getOrientation

    [matchMedia] is [None] when the action carries none
    ([typeof matchMedia === 'undefined']). *)
Definition getMediaType (matchMedia : option evaluator) (mediaQueries : obj)
    (infinityMediaType : string) : string :=
  match matchMedia with
  | None => infinityMediaType
  | Some matchMedia =>
      reduce mediaQueries (fun result query type =>
        if truthy (matchMedia query) then type else result) infinityMediaType
  end.

Definition getOrientation (matchMedia : option evaluator) : value :=
  match matchMedia with
  | None => defaultOrientation
  | Some matchMedia =>
      let mediaQueries : obj :=
        [ ("portrait", VStr "(orientation: portrait)");
          ("landscape", VStr "(orientation: landscape)") ] in
      reduce mediaQueries (fun result query type =>
        if truthy (matchMedia query) then VStr type else result) defaultOrientation
  end.

(** *** The factory (default export)

    [None] is a thrown TypeError: the module is strict code, where setting a
    property of a truthy primitive throws.  A reference outside the heap
    cannot occur in a run and also gives [None]. *)
Definition createResponsiveStateReducer (h : heap) (breakpoints : value)
    (opts : options) : option (closure * heap) :=
  let infinity := default defaultMediaType (infinity opts) in
  let extraFields := default (fun h _ => let (l, h') := alloc h [] in (VRef l, h'))
                             (extraFields opts) in
  let breakpoints :=
    if negb (truthy breakpoints) then VRef defaultBreakpoints_loc else breakpoints in
  match breakpoints with
  | VRef l =>
      o ← h !! l;
      let o' := obj_set infinity (VNum PosInf) o in
      let h' := <[l := o']> h in
      let mediaQueries := MediaQuery_asObject o' in
      let mediaOrdering := getOrderMap o' in
      Some ({| c_breakpoints := l;
               c_initialMediaType := initialMediaType opts;
               c_infinity := infinity;
               c_extraFields := extraFields;
               c_mediaQueries := mediaQueries;
               c_mediaOrdering := mediaOrdering |}, h')
  | VPrim _ => None
  end.

(** *** The reducer *)

(** Whether the reducer recomputes:
    [type === CALCULATE_RESPONSIVE_STATE || typeof state === 'undefined']. *)
Definition recalculates (state type : value) : bool :=
  strict_eq type (VStr CALCULATE_RESPONSIVE_STATE)
  || jstype_eqb (typeof state) TUndefined.

Definition currentMediaType (c : closure) (state : value)
    (matchMedia : option evaluator) : string :=
  match c_initialMediaType c with
  | Some initial =>
      if negb (truthy state) && truthy (VStr initial) then initial
      else getMediaType matchMedia (c_mediaQueries c) (c_infinity c)
  | None => getMediaType matchMedia (c_mediaQueries c) (c_infinity c)
  end.

(** The object literal bound to [responsiveState], given the references of
    the three maps it holds. *)
Definition responsiveState (c : closure) (lessThan greaterThan is_ : loc)
    (mediaType : string) (orientation : value) : obj :=
  [ ("_responsiveState", VBool true);
    ("lessThan", VRef lessThan);
    ("greaterThan", VRef greaterThan);
    ("is", VRef is_);
    ("mediaType", VStr mediaType);
    ("orientation", orientation);
    ("breakpoints", VRef (c_breakpoints c)) ].

(** The reducer, on the heap [h]: the new state and the new heap.  The
    action comes destructured into its [type] and its [matchMedia].  The
    object literal copies the properties of [responsiveState] first, then
    calls [extraFields] and copies the properties of its result.  [None]
    only when a reference is outside the heap. *)
Definition reducer (c : closure) (h : heap) (state type : value)
    (matchMedia : option evaluator) : option (value * heap) :=
  if recalculates state type then
    let mediaType := currentMediaType c state matchMedia in
    let orientation := getOrientation matchMedia in
    breakpoints ← h !! c_breakpoints c;
    let (lessThan, h1) := alloc h (getLessThan mediaType (c_mediaOrdering c)) in
    let (greaterThan, h2) := alloc h1 (getGreaterThan mediaType (c_mediaOrdering c)) in
    let (is_, h3) := alloc h2 (getIs mediaType breakpoints) in
    let (rs, h4) :=
      alloc h3 (responsiveState c lessThan greaterThan is_ mediaType orientation) in
    base ← own_props h4 (VRef rs);
    let (extra, h5) := c_extraFields c h4 (VRef rs) in
    extra_props ← own_props h5 extra;
    let (result, h6) := alloc h5 (assign (assign [] base) extra_props) in
    Some (VRef result, h6)
  else Some (state, h).

End Module.

(** ** Vocabulary of the statements *)

(** [x >= y] on numbers: both are numbers proper and [x] is not below [y]. *)
Definition num_ge (x y : number) : Prop := num_lt x y = Some false.

(** A width: a number other than NaN. *)
Definition is_width (v : value) : Prop :=
  exists n, v = VNum n /\ n <> NaN.

(** The rank [r] as a property value. *)
Definition rank (r : nat) : value := VNum (index_number r).

(** [a] is strictly narrower than [b]. *)
Definition narrower (a b : value) : Prop :=
  exists x y, a = VNum x /\ b = VNum y /\ num_lt x y = Some true.

(** An engine for closed examples.  Its two conversions are those of plain
    objects and of strings that denote no number; the examples never reach
    them with anything else. *)
Definition plain_engine : Engine :=
  {| ToPrimitive := fun _ => PStr "[object Object]";
     StringToNumber := fun _ => NaN |}.

(** The imports for closed examples: the action type as the spec names it,
    and a stand-in for the mediaquery package that keeps the property names
    (the examples that use it carry no evaluator, so that no query is ever
    read). *)
Definition example_imports : Imports :=
  {| MediaQuery_asObject := fun o => map (fun kv => (fst kv, VStr (fst kv))) o;
     CALCULATE_RESPONSIVE_STATE := "CALCULATE_RESPONSIVE_STATE" |}.

Definition default_options : options :=
  {| initialMediaType := None; infinity := None; extraFields := None |}.

(** The resolver as the specification words it: the name of the last query,
    in iteration order, that the evaluator matches; the fallback when there
    is no evaluator or no match. *)
Definition spec_resolveMediaType (matchMedia : option evaluator) (queries : obj)
    (fallback : string) : string :=
  match matchMedia with
  | None => fallback
  | Some matchMedia =>
      match find (fun kv => truthy (matchMedia (snd kv))) (rev queries) with
      | Some kv => fst kv
      | None => fallback
      end
  end.

(** A first run, for closed examples: the caller's configuration object is
    allocated next to the objects of the module, the factory is called on
    it, and the reducer is called once with an undefined state.  The result
    is the state object and the final heap. *)
Definition first_state (engine : Engine) (imports : Imports) (config : obj)
    (opts : options) (matchMedia : option evaluator) : option (obj * heap) :=
  let (l, h) := alloc module_heap config in
  ch ← createResponsiveStateReducer h (VRef l) opts;
  sh ← reducer (fst ch) (snd ch) VUndef (VStr "@@INIT") matchMedia;
  st ← own_props (snd sh) (fst sh);
  Some (st, snd sh).

(** The object a field of [o] refers to. *)
Definition field_object (h : heap) (o : obj) (k : string) : option obj :=
  v ← obj_lookup k o; own_props h v.

(** The configuration of the examples, before and after the factory has
    added the infinity entry, and the closure the factory builds for it when
    the object sits at reference 1, next to [defaultBreakpoints]. *)
Definition small_large : obj :=
  [("small", VNum (Fin 768)); ("large", VNum (Fin 1200))].

Definition small_large_infinity : obj :=
  [("small", VNum (Fin 768)); ("large", VNum (Fin 1200));
   ("infinity", VNum PosInf)].

Definition example_closure : closure :=
  {| c_breakpoints := 1;
     c_initialMediaType := None;
     c_infinity := "infinity";
     c_extraFields := fun h _ => (VRef (length h), h ++ [[]]);
     c_mediaQueries :=
       MediaQuery_asObject (Imports := example_imports) small_large_infinity;
     c_mediaOrdering := getOrderMap (engine := plain_engine) small_large_infinity |}.

(** The closure the factory builds for the same object when [extraFields]
    is [(s) => ({ mediaType: "override" })]. *)
Definition override_closure : closure :=
  {| c_breakpoints := 1;
     c_initialMediaType := None;
     c_infinity := "infinity";
     c_extraFields := fun h _ =>
       (VRef (length h), h ++ [[("mediaType", VStr "override")]]);
     c_mediaQueries :=
       MediaQuery_asObject (Imports := example_imports) small_large_infinity;
     c_mediaOrdering := getOrderMap (engine := plain_engine) small_large_infinity |}.

(** An order map of two breakpoints. *)
Definition two_ranks : obj := [("small", rank 0); ("large", rank 1)].

(** ** Vocabulary of the further properties *)

(** [m] is a map of booleans over the names of [o]: an object with no name
    twice, the same names as [o], and a boolean under each. *)
Definition boolean_map_of (o m : obj) : Prop :=
  List.NoDup (keys m)
  /\ (forall k, In k (keys m) <-> In k (keys o))
  /\ (forall k v, obj_lookup k m = Some v -> exists b, v = VBool b).

(** A finite width. *)
Definition is_finite (v : value) : Prop := exists q, v = VNum (Fin q).

(** The default of the [extraFields] option, [() => ({})]: it allocates an
    empty object. *)
Definition default_extraFields : heap -> value -> value * heap :=
  fun h _ => let (l, h') := alloc h [] in (VRef l, h').

(** The two queries of [getOrientation]. *)
Definition portrait_query : value := VStr "(orientation: portrait)".
Definition landscape_query : value := VStr "(orientation: landscape)".

(** The closure of the examples with an initial media type. *)
Definition example_closure_initial : closure :=
  {| c_breakpoints := 1;
     c_initialMediaType := Some "small";
     c_infinity := "infinity";
     c_extraFields := default_extraFields;
     c_mediaQueries :=
       MediaQuery_asObject (Imports := example_imports) small_large_infinity;
     c_mediaOrdering := getOrderMap (engine := plain_engine) small_large_infinity |}.

(** A configuration with a width, a string and a value that is neither. *)
Definition mixed_config : obj :=
  [("x", VNull); ("a", VNum (Fin 100)); ("s", VStr "print")].

(** Widths out of order. *)
Definition three_widths : obj :=
  [("c", VNum (Fin 300)); ("a", VNum (Fin 100)); ("b", VNum PosInf)].

(** The order the comparator of [getOrderMap] puts on widths and strings:
    widths by ascending value, every width before every string, strings in
    the order of their character codes. *)
Definition precedes (v w : value) : Prop :=
  match v, w with
  | VPrim (PNum x), VPrim (PNum y) => num_lt x y = Some true
  | VPrim (PNum _), VPrim (PStr _) => True
  | VPrim (PStr s), VPrim (PStr t) => String.ltb s t = true
  | _, _ => False
  end.

(** The converse, non-strict order. *)
Definition not_before (v w : value) : Prop :=
  match v, w with
  | VPrim (PNum x), VPrim (PNum y) => num_ge x y
  | VPrim (PStr _), VPrim (PNum _) => True
  | VPrim (PStr s), VPrim (PStr t) => String.ltb s t = false
  | _, _ => False
  end.

Definition is_width_or_string (v : value) : Prop :=
  is_width v \/ exists s, v = VStr s.

(** * Properties *)

(** ** Objects *)

Lemma obj_lookup_replace_eq k v o :
  has_key k o = true -> obj_lookup k (obj_replace k v o) = Some v.
Proof.
  unfold has_key. induction o as [|[k' v'] o IH]; simpl; [discriminate|].
  destruct (String.eqb k k') eqn:E; simpl.
  - now rewrite String.eqb_refl.
  - rewrite E. exact IH.
Qed.

Lemma obj_lookup_replace_ne k k0 v o :
  k0 <> k -> obj_lookup k0 (obj_replace k v o) = obj_lookup k0 o.
Proof.
  intros Hne. induction o as [|[k' v'] o IH]; simpl; [reflexivity|].
  destruct (String.eqb_spec k k') as [<-|Hk]; simpl.
  - apply String.eqb_neq in Hne. now rewrite Hne.
  - now rewrite IH.
Qed.

Lemma obj_lookup_insert_index_eq n k v o :
  obj_lookup k o = None -> obj_lookup k (obj_insert_index n k v o) = Some v.
Proof.
  induction o as [|[k' v'] o IH]; simpl.
  - now rewrite String.eqb_refl.
  - destruct (String.eqb k k') eqn:E; [discriminate|]. intros Hnone.
    destruct (array_index k') as [n'|]; simpl.
    + destruct (n' <? n)%N; simpl.
      * rewrite E. now apply IH.
      * now rewrite String.eqb_refl.
    + now rewrite String.eqb_refl.
Qed.

Lemma obj_lookup_insert_index_ne n k k0 v o :
  k0 <> k -> obj_lookup k0 (obj_insert_index n k v o) = obj_lookup k0 o.
Proof.
  intros Hne. apply String.eqb_neq in Hne.
  induction o as [|[k' v'] o IH]; simpl.
  - now rewrite Hne.
  - destruct (array_index k') as [n'|]; simpl.
    + destruct (n' <? n)%N; simpl.
      * now rewrite IH.
      * now rewrite Hne.
    + now rewrite Hne.
Qed.

Lemma obj_lookup_app k o1 o2 :
  obj_lookup k (o1 ++ o2) =
  match obj_lookup k o1 with Some v => Some v | None => obj_lookup k o2 end.
Proof.
  induction o1 as [|[k' v'] o1 IH]; simpl; [reflexivity|].
  now destruct (String.eqb k k').
Qed.

Lemma obj_lookup_set_eq k v o : obj_lookup k (obj_set k v o) = Some v.
Proof.
  unfold obj_set. destruct (has_key k o) eqn:E.
  - now apply obj_lookup_replace_eq.
  - unfold has_key in E. destruct (obj_lookup k o) eqn:L; [discriminate|].
    destruct (array_index k).
    + now apply obj_lookup_insert_index_eq.
    + rewrite obj_lookup_app, L. simpl. now rewrite String.eqb_refl.
Qed.

Lemma obj_lookup_set_ne k k0 v o :
  k0 <> k -> obj_lookup k0 (obj_set k v o) = obj_lookup k0 o.
Proof.
  intros Hne. unfold obj_set. destruct (has_key k o).
  - now apply obj_lookup_replace_ne.
  - destruct (array_index k).
    + now apply obj_lookup_insert_index_ne.
    + rewrite obj_lookup_app. simpl. apply String.eqb_neq in Hne. rewrite Hne.
      now destruct (obj_lookup k0 o).
Qed.

Lemma obj_lookup_None k o : obj_lookup k o = None <-> ~ In k (keys o).
Proof.
  induction o as [|[k' v'] o IH]; simpl; [tauto|].
  destruct (String.eqb_spec k k') as [->|Hk].
  - split; [discriminate|]. intros Hn. exfalso. apply Hn. now left.
  - rewrite IH. split; [|tauto]. intros Hn [Heq|Hin]; [congruence|tauto].
Qed.

Lemma obj_lookup_Some_In k v o : obj_lookup k o = Some v -> In (k, v) o.
Proof.
  induction o as [|[k' v'] o IH]; simpl; [discriminate|].
  destruct (String.eqb_spec k k') as [->|Hk].
  - intros [= ->]. now left.
  - intros Hl. right. now apply IH.
Qed.

Lemma In_obj_lookup k v o :
  List.NoDup (keys o) -> In (k, v) o -> obj_lookup k o = Some v.
Proof.
  induction o as [|[k' v'] o IH]; simpl; [tauto|].
  intros Hnd Hin. apply List.NoDup_cons_iff in Hnd as [Hnot Hnd].
  destruct Hin as [[= -> ->]|Hin].
  - now rewrite String.eqb_refl.
  - destruct (String.eqb_spec k k') as [->|Hk]; [|now apply IH].
    exfalso. apply Hnot. change (In k' (map fst o)).
    apply in_map_iff. now exists (k', v).
Qed.

(** What a loop of property assignments leaves under a name: the callback
    [it] sets [result[key]] to [g value key], or leaves [result] alone. *)
Lemma fold_assignments_lookup (it : obj -> value -> string -> obj)
    (g : value -> string -> option value) :
  (forall r v k,
     it r v k = match g v k with Some x => obj_set k x r | None => r end) ->
  forall (o acc : obj) (k : string),
    List.NoDup (keys o) ->
    obj_lookup k (fold_left (fun r kv => it r (snd kv) (fst kv)) o acc) =
    match obj_lookup k o with
    | Some v => match g v k with Some x => Some x | None => obj_lookup k acc end
    | None => obj_lookup k acc
    end.
Proof.
  intros Hit o. induction o as [|[k0 v0] o IH]; intros acc k Hnd; simpl.
  - reflexivity.
  - simpl in Hnd. apply List.NoDup_cons_iff in Hnd as [Hnot Hnd].
    rewrite IH by assumption. rewrite Hit.
    destruct (String.eqb_spec k k0) as [->|Hk].
    + apply obj_lookup_None in Hnot. rewrite Hnot.
      destruct (g v0 k0); [apply obj_lookup_set_eq|reflexivity].
    + destruct (obj_lookup k o) as [v|].
      * destruct (g v k); [reflexivity|].
        destruct (g v0 k0); [now apply obj_lookup_set_ne|reflexivity].
      * destruct (g v0 k0); [now apply obj_lookup_set_ne|reflexivity].
Qed.

Lemma transform_lookup (it : obj -> value -> string -> obj)
    (g : value -> string -> option value) (o : obj) (k : string) :
  (forall r v k,
     it r v k = match g v k with Some x => obj_set k x r | None => r end) ->
  List.NoDup (keys o) ->
  obj_lookup k (transform o it) =
  match obj_lookup k o with Some v => g v k | None => None end.
Proof.
  intros Hit Hnd. unfold transform.
  rewrite (fold_assignments_lookup it g Hit) by assumption. simpl.
  destruct (obj_lookup k o) as [v|]; [|reflexivity]. now destruct (g v k).
Qed.

Lemma assign_lookup (target source : obj) (k : string) :
  List.NoDup (keys source) ->
  obj_lookup k (assign target source) =
  match obj_lookup k source with
  | Some v => Some v
  | None => obj_lookup k target
  end.
Proof.
  intros Hnd. unfold assign.
  exact (fold_assignments_lookup (fun t v k => obj_set k v t)
           (fun v _ => Some v) (fun _ _ _ => eq_refl) source target k Hnd).
Qed.

(** ** Numbers *)

Lemma num_ge_trans a b c : num_ge a b -> num_ge b c -> num_ge a c.
Proof.
  unfold num_ge.
  destruct a as [| |x|], b as [| |y|], c as [| |z|]; simpl;
    try discriminate; try reflexivity.
  intros [= Hxy] [= Hyz]. f_equal.
  apply Bool.negb_false_iff in Hxy, Hyz. apply Bool.negb_false_iff.
  apply Qle_bool_iff in Hxy, Hyz. apply Qle_bool_iff.
  now apply Qle_trans with y.
Qed.

Lemma num_lt_ge a b : num_lt a b = Some true -> num_ge b a.
Proof.
  unfold num_ge.
  destruct a as [| |x|], b as [| |y|]; simpl; try discriminate; try reflexivity.
  intros [= Hxy]. f_equal.
  apply Bool.negb_true_iff in Hxy. apply Bool.negb_false_iff.
  apply Qle_bool_iff. apply Qlt_le_weak, Qnot_le_lt.
  intros Hle. apply Qle_bool_iff in Hle. congruence.
Qed.

Lemma num_lt_defined a b :
  a <> NaN -> b <> NaN -> exists r, num_lt a b = Some r.
Proof.
  destruct a, b; simpl; intros Ha Hb; try congruence; eauto.
Qed.

Lemma num_lt_irrefl a : num_lt a a <> Some true.
Proof.
  destruct a as [| |x|]; simpl; try discriminate.
  intros [= Hx]. apply Bool.negb_true_iff in Hx.
  assert (Qle_bool x x = true) by (apply Qle_bool_iff, Qle_refl). congruence.
Qed.

Lemma num_lt_index i j :
  num_lt (index_number i) (index_number j) = Some (Nat.ltb i j).
Proof.
  unfold index_number. simpl. f_equal.
  destruct (Nat.ltb_spec i j) as [Hlt|Hge].
  - apply Bool.negb_true_iff. destruct (Qle_bool _ _) eqn:E; [|reflexivity].
    apply Qle_bool_iff in E. rewrite <- Zle_Qle in E. lia.
  - apply Bool.negb_false_iff, Qle_bool_iff. rewrite <- Zle_Qle. lia.
Qed.

(** ** The insertion sort

    The comparator is only required to respect a transitive relation [R] on
    the elements being sorted: a positive answer on [(tmp, element)] puts
    [tmp] after [element], any other answer puts it before. *)
Section InsertionSort.
Variable comparefn : string -> string -> Z.
Variable D : string -> Prop.
Variable R : string -> string -> Prop.
Hypothesis R_trans :
  forall a b c, D a -> D b -> D c -> R a b -> R b c -> R a c.
Hypothesis comparefn_pos :
  forall t x, D t -> D x -> (0 < comparefn t x)%Z -> R t x.
Hypothesis comparefn_nonpos :
  forall t x, D t -> D x -> ~ (0 < comparefn t x)%Z -> R x t.

Lemma sort_insert_In x l y :
  In y (sort_insert comparefn x l) <-> y = x \/ In y l.
Proof.
  induction l as [|t l IH]; simpl.
  - intuition.
  - destruct (0 <? comparefn t x)%Z; simpl; [rewrite IH|]; intuition.
Qed.

Lemma sort_insert_sorted x l :
  D x -> Forall D l -> StronglySorted R l ->
  StronglySorted R (sort_insert comparefn x l).
Proof.
  intros Dx. induction l as [|t l IH]; intros HD Hs; simpl.
  - repeat constructor.
  - apply Forall_cons in HD as [Dt HD].
    apply StronglySorted_inv in Hs as [Hs Ht].
    destruct (Z.ltb_spec 0 (comparefn t x)) as [Hpos|Hnp].
    + constructor; [now apply IH|].
      apply List.Forall_forall. intros y Hy. apply sort_insert_In in Hy.
      destruct Hy as [->|Hy]; [now apply comparefn_pos|].
      rewrite List.Forall_forall in Ht. now apply Ht.
    + assert (Rxt : R x t) by (apply comparefn_nonpos; [assumption..|lia]).
      constructor; [now constructor|].
      constructor; [assumption|].
      rewrite List.Forall_forall in Ht, HD |- *. intros y Hy.
      apply R_trans with t; auto.
Qed.

Lemma sort_prefix_spec a : forall prefix_rev,
  Forall D a -> Forall D prefix_rev -> StronglySorted R prefix_rev ->
  let r := fold_left (fun p x => sort_insert comparefn x p) a prefix_rev in
  StronglySorted R r /\ Forall D r /\
  (forall y, In y r <-> In y a \/ In y prefix_rev).
Proof.
  induction a as [|x a IH]; intros p Da Dp Hs; simpl.
  - repeat split; [assumption..| |]; intuition.
  - apply Forall_cons in Da as [Dx Da].
    assert (Dins : Forall D (sort_insert comparefn x p)).
    { rewrite List.Forall_forall in Dp |- *. intros y Hy.
      apply sort_insert_In in Hy as [->|Hy]; [assumption|].
      now apply Dp. }
    destruct (IH (sort_insert comparefn x p) Da Dins
                (sort_insert_sorted x p Dx Dp Hs)) as (H1 & H2 & H3).
    repeat split; [assumption..| |].
    + intros Hy. apply H3 in Hy as [Hy|Hy]; [tauto|].
      apply sort_insert_In in Hy. intuition.
    + intros Hy. apply H3. rewrite sort_insert_In. intuition.
Qed.

Lemma sort_insert_length x l :
  length (sort_insert comparefn x l) = S (length l).
Proof.
  induction l as [|t l IH]; simpl; [reflexivity|].
  destruct (0 <? comparefn t x)%Z; simpl; [now rewrite IH|reflexivity].
Qed.

Lemma array_sort_length a : length (array_sort comparefn a) = length a.
Proof.
  unfold array_sort. rewrite length_rev.
  enough (forall p, length (fold_left (fun p x => sort_insert comparefn x p) a p)
                    = length a + length p) as -> by (simpl; lia).
  induction a as [|x a IH]; intros p; simpl; [reflexivity|].
  rewrite IH, sort_insert_length. lia.
Qed.

Lemma array_sort_In a y : In y (array_sort comparefn a) <-> In y a.
Proof.
  unfold array_sort. rewrite <- in_rev.
  enough (forall p,
    In y (fold_left (fun p x => sort_insert comparefn x p) a p)
    <-> In y a \/ In y p) as E by (rewrite E; simpl; tauto).
  induction a as [|x a IH]; intros p; simpl; [tauto|].
  rewrite IH, sort_insert_In. intuition.
Qed.

(** The sorted array lists its elements in an order compatible with [R]:
    of two elements, the later one is [R]-related to the earlier one. *)
Lemma array_sort_sorted a :
  Forall D a -> StronglySorted (flip R) (array_sort comparefn a).
Proof.
  intros Da. unfold array_sort.
  destruct (sort_prefix_spec a [] Da (Forall_nil_2 _) (SSorted_nil R))
    as (Hs & _ & _).
  revert Hs. generalize (fold_left (fun p x => sort_insert comparefn x p) a []).
  intros l. induction l as [|t l IH]; intros Hs; simpl; [constructor|].
  apply StronglySorted_inv in Hs as [Hs Ht].
  apply StronglySorted_app_2; [|now apply IH|repeat constructor].
  intros y z Hy Hz. apply list_elem_of_In in Hz as [<-|[]].
  apply list_elem_of_In, in_rev in Hy. rewrite List.Forall_forall in Ht.
  now apply Ht.
Qed.
End InsertionSort.

(** ** indexOf *)

Lemma indexOf_lookup x a i : indexOf x a = Some i -> a !! i = Some x.
Proof.
  revert i. induction a as [|y a IH]; intros i; simpl; [discriminate|].
  destruct (String.eqb_spec x y) as [->|Hne].
  - now intros [= <-].
  - destruct (indexOf x a) as [j|]; simpl; [|discriminate].
    intros [= <-]. simpl. now apply IH.
Qed.

Lemma indexOf_In x a : In x a -> exists i, indexOf x a = Some i.
Proof.
  induction a as [|y a IH]; simpl; [tauto|].
  destruct (String.eqb_spec x y) as [->|Hne]; [eauto|].
  intros [->|Hin]; [congruence|].
  destruct (IH Hin) as [i ->]. simpl. eauto.
Qed.

Lemma lookup_indexOf x (a : list string) i :
  List.NoDup a -> a !! i = Some x -> indexOf x a = Some i.
Proof.
  revert i. induction a as [|y a IH]; intros i Hnd; [discriminate|].
  apply List.NoDup_cons_iff in Hnd as [Hnot Hnd].
  destruct i as [|i]; simpl.
  - intros [= ->]. now rewrite String.eqb_refl.
  - intros Hi. destruct (String.eqb_spec x y) as [->|Hne].
    + exfalso. apply Hnot. apply list_elem_of_In. eapply list_elem_of_lookup_2, Hi.
    + now rewrite (IH i Hnd Hi).
Qed.

Lemma StronglySorted_lookup {A} (S : A -> A -> Prop) (l : list A) i j a b :
  StronglySorted S l -> l !! i = Some a -> l !! j = Some b -> i < j -> S a b.
Proof.
  intros Hs. revert i j. induction Hs as [|x l Hs IH Hx]; intros i j; [discriminate|].
  destruct i as [|i], j as [|j]; simpl; try lia.
  - intros [= ->] Hj _. rewrite List.Forall_forall in Hx. apply Hx.
    apply list_elem_of_In. eapply list_elem_of_lookup_2, Hj.
  - intros Hi Hj Hlt. apply (IH i j); [assumption..|lia].
Qed.

Lemma StronglySorted_weaken {A} (R S : A -> A -> Prop) (l : list A) :
  (forall a b, In a l -> In b l -> R a b -> S a b) ->
  StronglySorted R l -> StronglySorted S l.
Proof.
  intros HRS Hs. induction Hs as [|x l Hs IH Hx]; constructor.
  - apply IH. intros a b Ha Hb. apply HRS; now right.
  - rewrite List.Forall_forall in Hx |- *. intros y Hy.
    apply HRS; [now left|now right|now apply Hx].
Qed.

Section Properties.
Context {engine : Engine} {imports : Imports}.

(** ** getOrderMap *)

Lemma js_ge_numbers x y :
  js_ge (VNum x) (VNum y) = true <-> num_ge x y.
Proof.
  unfold js_ge, js_lt_opt, num_ge. simpl.
  destruct (num_lt x y) as [[|]|]; split; congruence.
Qed.

Lemma js_lt_ranks i j : js_lt (rank i) (rank j) = Nat.ltb i j.
Proof.
  unfold js_lt, js_lt_opt, rank, to_primitive, ToNumber.
  now rewrite num_lt_index.
Qed.

Lemma array_sort_NoDup comparefn (a : list string) :
  List.NoDup a -> List.NoDup (array_sort comparefn a).
Proof.
  intros Hnd. apply List.NoDup_incl_NoDup with a; [assumption| |].
  - now rewrite array_sort_length.
  - intros x Hx. now apply array_sort_In.
Qed.

(** Every name of the configuration gets its position in the sorted keys. *)
Lemma getOrderMap_lookup (bps : obj) (k : string) :
  List.NoDup (keys bps) ->
  obj_lookup k (getOrderMap bps) =
  match obj_lookup k bps with
  | Some _ => rank <$> indexOf k (array_sort (compare_keys bps) (keys bps))
  | None => None
  end.
Proof.
  intros Hnd. unfold getOrderMap.
  apply (transform_lookup _
    (fun _ k => rank <$> indexOf k (array_sort (compare_keys bps) (keys bps)))).
  - intros r v k'. now destruct (indexOf k' _).
  - assumption.
Qed.

Lemma getOrderMap_lookup_Some (bps : obj) (k : string) v :
  List.NoDup (keys bps) -> obj_lookup k bps = Some v ->
  exists i, indexOf k (array_sort (compare_keys bps) (keys bps)) = Some i
            /\ obj_lookup k (getOrderMap bps) = Some (rank i).
Proof.
  intros Hnd Hk. rewrite getOrderMap_lookup, Hk by assumption.
  destruct (indexOf_In k (array_sort (compare_keys bps) (keys bps))) as [i Hi].
  - apply array_sort_In. apply obj_lookup_Some_In in Hk.
    change (In k (map fst bps)). apply in_map_iff. now exists (k, v).
  - exists i. now rewrite Hi.
Qed.

Lemma getOrderMap_sorted_keys (bps : obj) i k :
  List.NoDup (keys bps) ->
  array_sort (compare_keys bps) (keys bps) !! i = Some k ->
  obj_lookup k (getOrderMap bps) = Some (rank i).
Proof.
  intros Hnd Hi.
  assert (Hin : In k (keys bps)).
  { apply (array_sort_In (compare_keys bps)), list_elem_of_In.
    eapply list_elem_of_lookup_2, Hi. }
  rewrite getOrderMap_lookup by assumption.
  destruct (obj_lookup k bps) eqn:E.
  - rewrite (lookup_indexOf k _ i); [reflexivity| |assumption].
    now apply array_sort_NoDup.
  - apply obj_lookup_None in E. contradiction.
Qed.

Lemma In_keys_get (bps : obj) (P : value -> Prop) k :
  Forall (fun kv => P (snd kv)) bps -> In k (keys bps) -> P (obj_get bps k).
Proof.
  intros HP Hin. unfold obj_get. destruct (obj_lookup k bps) as [v|] eqn:E.
  - apply obj_lookup_Some_In in E. rewrite List.Forall_forall in HP.
    now apply (HP (k, v)).
  - apply obj_lookup_None in E. contradiction.
Qed.

(** On widths the comparator is the order of the numbers. *)
Lemma compare_keys_widths (bps : obj) t x nt nx :
  obj_get bps t = VNum nt -> obj_get bps x = VNum nx ->
  (0 < compare_keys bps t x)%Z <-> num_ge nt nx.
Proof.
  intros Ht Hx. unfold compare_keys. rewrite Ht, Hx. simpl.
  rewrite <- js_ge_numbers.
  destruct (js_ge (VNum nt) (VNum nx)); split; (lia || congruence).
Qed.

Lemma sorted_widths (bps : obj) :
  Forall (fun kv => is_width (snd kv)) bps ->
  StronglySorted
    (fun a b => ~ narrower (obj_get bps b) (obj_get bps a))
    (array_sort (compare_keys bps) (keys bps)).
Proof.
  intros Hw.
  pose (D := fun k => In k (keys bps)).
  pose (R := fun t x => exists nt nx,
               obj_get bps t = VNum nt /\ obj_get bps x = VNum nx /\ num_ge nt nx).
  assert (HD : forall k, D k -> exists n, obj_get bps k = VNum n /\ n <> NaN)
    by (intros k Hk; exact (In_keys_get bps is_width k Hw Hk)).
  assert (Hs : StronglySorted (flip R) (array_sort (compare_keys bps) (keys bps))).
  { apply (array_sort_sorted (compare_keys bps) D R).
    - intros a b c _ _ _ (na & nb & Ha & Hb & Hab) (nb' & nc & Hb' & Hc & Hbc).
      exists na, nc. repeat split; try assumption.
      assert (nb' = nb) as -> by congruence. now apply num_ge_trans with nb.
    - intros t x Dt Dx Hpos.
      destruct (HD t Dt) as (nt & Ht & _), (HD x Dx) as (nx & Hx & _).
      exists nt, nx. repeat split; try assumption.
      now apply (compare_keys_widths bps t x).
    - intros t x Dt Dx Hnp.
      destruct (HD t Dt) as (nt & Ht & Hnt), (HD x Dx) as (nx & Hx & Hnx).
      exists nx, nt. repeat split; try assumption.
      destruct (num_lt_defined nt nx Hnt Hnx) as [[|] Hr].
      + now apply num_lt_ge.
      + exfalso. apply Hnp. now apply (compare_keys_widths bps t x nt nx).
    - apply List.Forall_forall. now intros k Hk. }
  eapply StronglySorted_weaken; [|exact Hs].
  intros a b _ _ (nb & na & Hb & Ha & Hge) (x & y & Hx & Hy & Hlt).
  rewrite Hb in Hx. rewrite Ha in Hy. injection Hx as <-. injection Hy as <-.
  unfold num_ge in Hge. congruence.
Qed.

(** With numbers and strings only, the sorted keys never list a string
    before a number. *)
Lemma sorted_numbers_first (bps : obj) :
  Forall (fun kv => typeof (snd kv) = TNumber \/ typeof (snd kv) = TString) bps ->
  StronglySorted
    (fun a b => typeof (obj_get bps b) = TNumber -> typeof (obj_get bps a) = TNumber)
    (array_sort (compare_keys bps) (keys bps)).
Proof.
  intros Hv.
  pose (D := fun k => In k (keys bps)).
  pose (R := fun t x =>
               typeof (obj_get bps t) = TNumber -> typeof (obj_get bps x) = TNumber).
  assert (HD : forall k, D k ->
            typeof (obj_get bps k) = TNumber \/ typeof (obj_get bps k) = TString)
    by (intros k Hk;
        exact (In_keys_get bps
                 (fun v => typeof v = TNumber \/ typeof v = TString) k Hv Hk)).
  apply (array_sort_sorted (compare_keys bps) D R).
  - unfold R. intros a b c _ _ _ Hab Hbc Ha. auto.
  - intros t x Dt Dx Hpos Ht. destruct (HD x Dx) as [Hx|Hx]; [assumption|].
    exfalso. unfold compare_keys in Hpos. rewrite Ht, Hx in Hpos.
    simpl in Hpos. lia.
  - intros t x Dt Dx Hnp Hx. destruct (HD t Dt) as [Ht|Ht]; [assumption|].
    exfalso. apply Hnp. unfold compare_keys. rewrite Ht, Hx. simpl. lia.
  - apply List.Forall_forall. now intros k Hk.
Qed.

Lemma obj_get_lookup (o : obj) k v :
  obj_get o k = v -> v <> VUndef -> obj_lookup k o = Some v.
Proof.
  unfold obj_get. destruct (obj_lookup k o); intros <- Hv; congruence.
Qed.

(** C5. When every value of the configuration is a width (a number other
    than NaN), the ranks of [getOrderMap] strictly increase with the width;
    the names listed by ascending width receive the ranks 0, 1, 2, ... in
    that order; and [{a:100, b:200, c:300}] gets [{a:0, b:1, c:2}]. *)
Theorem getOrderMap_ranks_increase_with_width (bps : obj) :
  List.NoDup (keys bps) ->
  Forall (fun kv => is_width (snd kv)) bps ->
  (forall a b, narrower (obj_get bps a) (obj_get bps b) ->
     exists i j, obj_lookup a (getOrderMap bps) = Some (rank i)
                 /\ obj_lookup b (getOrderMap bps) = Some (rank j)
                 /\ i < j)
  /\ (exists ks : list string,
        Permutation ks (keys bps)
        /\ StronglySorted
             (fun a b => ~ narrower (obj_get bps b) (obj_get bps a)) ks
        /\ forall i k, ks !! i = Some k ->
                       obj_lookup k (getOrderMap bps) = Some (rank i))
  /\ getOrderMap [("a", VNum (Fin 100)); ("b", VNum (Fin 200)); ("c", VNum (Fin 300))]
     = [("a", rank 0); ("b", rank 1); ("c", rank 2)].
Proof.
  intros Hnd Hw. pose proof (sorted_widths bps Hw) as Hs.
  split; [|split].
  - intros a b Hab. pose proof Hab as (x & y & Ha & Hb & Hlt).
    apply obj_get_lookup in Ha; [|discriminate].
    apply obj_get_lookup in Hb; [|discriminate].
    destruct (getOrderMap_lookup_Some bps a _ Hnd Ha) as (i & Hi & Hra).
    destruct (getOrderMap_lookup_Some bps b _ Hnd Hb) as (j & Hj & Hrb).
    exists i, j. repeat split; try assumption.
    apply indexOf_lookup in Hi, Hj.
    destruct (Nat.lt_total i j) as [Hlt'|[->|Hgt]]; [assumption| |].
    + exfalso. assert (a = b) as -> by congruence.
      apply (num_lt_irrefl x). unfold obj_get in Hab. rewrite Hb in Ha.
      injection Ha as ->. assumption.
    + exfalso. exact (StronglySorted_lookup _ _ j i b a Hs Hj Hi Hgt Hab).
  - exists (array_sort (compare_keys bps) (keys bps)).
    split; [|split; [exact Hs|]].
    + apply Permutation.NoDup_Permutation;
        [now apply array_sort_NoDup|assumption|].
      intros k. apply array_sort_In.
    + intros i k. now apply getOrderMap_sorted_keys.
  - reflexivity.
Qed.

(** C6, as amended.  When every value of the configuration is a number or a
    string, every number-valued breakpoint receives a strictly lower rank
    than every string-valued one, whatever the order of declaration; and
    [{x:"foo", a:100}] ranks [a] (0) before [x] (1). *)
Theorem getOrderMap_numbers_before_strings (bps : obj) :
  List.NoDup (keys bps) ->
  Forall (fun kv => typeof (snd kv) = TNumber \/ typeof (snd kv) = TString) bps ->
  (forall a x n s,
     obj_lookup a bps = Some (VNum n) -> obj_lookup x bps = Some (VStr s) ->
     exists i j, obj_lookup a (getOrderMap bps) = Some (rank i)
                 /\ obj_lookup x (getOrderMap bps) = Some (rank j)
                 /\ i < j)
  /\ getOrderMap [("x", VStr "foo"); ("a", VNum (Fin 100))]
     = [("x", rank 1); ("a", rank 0)].
Proof.
  intros Hnd Hv. split; [|reflexivity].
  intros a x n s Ha Hx. pose proof (sorted_numbers_first bps Hv) as Hs.
  destruct (getOrderMap_lookup_Some bps a _ Hnd Ha) as (i & Hi & Hra).
  destruct (getOrderMap_lookup_Some bps x _ Hnd Hx) as (j & Hj & Hrx).
  exists i, j. repeat split; try assumption.
  apply indexOf_lookup in Hi, Hj.
  assert (Hta : typeof (obj_get bps a) = TNumber)
    by (unfold obj_get; now rewrite Ha).
  assert (Htx : typeof (obj_get bps x) = TString)
    by (unfold obj_get; now rewrite Hx).
  destruct (Nat.lt_total i j) as [Hlt|[->|Hgt]]; [assumption| |].
  - exfalso. assert (a = x) as -> by congruence. congruence.
  - exfalso.
    pose proof (StronglySorted_lookup _ _ j i x a Hs Hj Hi Hgt Hta). congruence.
Qed.


(** ** getLessThan, getGreaterThan, getIs *)

Lemma getLessThan_lookup cur (om : obj) k :
  List.NoDup (keys om) ->
  obj_lookup k (getLessThan cur om) =
  match obj_lookup k om with
  | Some v =>
      Some (VBool (jstype_eqb (typeof v) TNumber && truthy (obj_get om k)
                   && js_lt (obj_get om cur) (obj_get om k)))
  | None => None
  end.
Proof.
  intros Hnd. unfold getLessThan.
  apply (transform_lookup _ (fun v k =>
    Some (VBool (jstype_eqb (typeof v) TNumber && truthy (obj_get om k)
                 && js_lt (obj_get om cur) (obj_get om k))))); [|assumption].
  intros r v k'. now destruct (jstype_eqb (typeof v) TNumber && truthy (obj_get om k')).
Qed.

Lemma getGreaterThan_lookup cur (om : obj) k :
  List.NoDup (keys om) ->
  obj_lookup k (getGreaterThan cur om) =
  match obj_lookup k om with
  | Some v =>
      Some (VBool (jstype_eqb (typeof v) TNumber
                   && js_gt (obj_get om cur) (obj_get om k)))
  | None => None
  end.
Proof.
  intros Hnd. unfold getGreaterThan.
  apply (transform_lookup _ (fun v k =>
    Some (VBool (jstype_eqb (typeof v) TNumber
                 && js_gt (obj_get om cur) (obj_get om k))))); [|assumption].
  intros r v k'. now destruct (jstype_eqb (typeof v) TNumber).
Qed.

Lemma getIs_lookup cur (bps : obj) k :
  List.NoDup (keys bps) ->
  obj_lookup k (getIs cur bps) =
  match obj_lookup k bps with
  | Some v =>
      Some (VBool (jstype_eqb (typeof v) TNumber && truthy (obj_get bps k)
                   && String.eqb k cur))
  | None => None
  end.
Proof.
  intros Hnd. unfold getIs.
  apply (transform_lookup _ (fun v k =>
    Some (VBool (jstype_eqb (typeof v) TNumber && truthy (obj_get bps k)
                 && String.eqb k cur)))); [|assumption].
  intros r v k'. now destruct (jstype_eqb (typeof v) TNumber && truthy (obj_get bps k')).
Qed.

Lemma truthy_rank r : truthy (rank r) = negb (Nat.eqb r 0).
Proof. now destruct r. Qed.

Lemma obj_get_Some (o : obj) k v : obj_lookup k o = Some v -> obj_get o k = v.
Proof. unfold obj_get. now intros ->. Qed.

(** C10. Whatever the current media type, [getLessThan] maps the breakpoint
    of rank 0 to false: the guard tests the rank of the entry it visits. *)
Theorem getLessThan_rank0_entry_false cur (om : obj) name :
  List.NoDup (keys om) ->
  obj_lookup name om = Some (rank 0) ->
  obj_lookup name (getLessThan cur om) = Some (VBool false).
Proof.
  intros Hnd Hname. rewrite getLessThan_lookup, Hname by assumption.
  rewrite (obj_get_Some om name _ Hname), truthy_rank. reflexivity.
Qed.

(** C1, as amended.  When the current media type has rank 0, [getLessThan]
    maps the breakpoint of rank 0 to false and every breakpoint of a
    positive rank to true. *)
Theorem getLessThan_current_rank0 cur (om : obj) :
  List.NoDup (keys om) ->
  obj_lookup cur om = Some (rank 0) ->
  forall name r,
    obj_lookup name om = Some (rank r) ->
    obj_lookup name (getLessThan cur om) = Some (VBool (Nat.ltb 0 r)).
Proof.
  intros Hnd Hcur name r Hname. rewrite getLessThan_lookup, Hname by assumption.
  rewrite (obj_get_Some om name _ Hname), (obj_get_Some om cur _ Hcur).
  rewrite truthy_rank, js_lt_ranks. now destruct r.
Qed.

(** The part of C2 that the code keeps: [getIs] looks at the configured
    value, and maps every breakpoint whose value is not a number to false. *)
Lemma getIs_non_numeric cur (bps : obj) name v :
  List.NoDup (keys bps) ->
  obj_lookup name bps = Some v -> typeof v <> TNumber ->
  obj_lookup name (getIs cur bps) = Some (VBool false).
Proof.
  intros Hnd Hname Hv. rewrite getIs_lookup, Hname by assumption.
  destruct (typeof v); try reflexivity. congruence.
Qed.

(** [getLessThan] and [getGreaterThan] are handed the order map, whose values
    are ranks: their [typeof] test sees a number at every entry. *)
Lemma getOrderMap_values_are_numbers (bps : obj) k v :
  List.NoDup (keys bps) ->
  obj_lookup k (getOrderMap bps) = Some v -> typeof v = TNumber.
Proof.
  intros Hnd. rewrite getOrderMap_lookup by assumption.
  destruct (obj_lookup k bps); [|discriminate].
  destruct (indexOf k _); [|discriminate]. now intros [= <-].
Qed.

(** ** getMediaType *)

Lemma find_append {A} (f : A -> bool) (l1 l2 : list A) :
  find f (l1 ++ l2)
  = match find f l1 with Some x => Some x | None => find f l2 end.
Proof.
  induction l1 as [|x l1 IH]; simpl; [reflexivity|]. now destruct (f x).
Qed.

Lemma fold_last_match (matchMedia : evaluator) (queries : obj) (fallback : string) :
  fold_left (fun result kv => if truthy (matchMedia (snd kv)) then fst kv else result)
    queries fallback
  = match find (fun kv => truthy (matchMedia (snd kv))) (rev queries) with
    | Some kv => fst kv
    | None => fallback
    end.
Proof.
  revert fallback. induction queries as [|[k q] qs IH]; intros fallback; simpl.
  - reflexivity.
  - rewrite IH, find_append.
    destruct (find _ (rev qs)) as [kv|]; [reflexivity|]. simpl.
    now destruct (truthy (matchMedia q)).
Qed.

(** C4. [getMediaType] folds over the queries in their order, starting from
    the fallback, and so returns the name of the last query that matches
    (the fallback when none does); two matching queries [small], [large]
    give ["large"]; without an evaluator the fallback is returned. *)
Theorem getMediaType_last_match_wins (queries : obj) (fallback : string) :
  getMediaType None queries fallback = fallback
  /\ (forall matchMedia : evaluator,
        getMediaType (Some matchMedia) queries fallback
        = fold_left
            (fun result kv => if truthy (matchMedia (snd kv)) then fst kv else result)
            queries fallback)
  /\ (forall matchMedia : option evaluator,
        getMediaType matchMedia queries fallback
        = spec_resolveMediaType matchMedia queries fallback)
  /\ (forall (matchMedia : evaluator) q1 q2,
        truthy (matchMedia q1) = true -> truthy (matchMedia q2) = true ->
        getMediaType (Some matchMedia) [("small", q1); ("large", q2)] fallback
        = "large").
Proof.
  repeat split.
  - intros [matchMedia|]; [|reflexivity]. apply fold_last_match.
  - intros matchMedia q1 q2 H1 H2. simpl. now rewrite H2.
Qed.

(** ** The reducer *)


Lemma assign_responsiveState c lessThan greaterThan is_ mediaType orientation :
  assign [] (responsiveState c lessThan greaterThan is_ mediaType orientation)
  = responsiveState c lessThan greaterThan is_ mediaType orientation.
Proof. reflexivity. Qed.

Lemma strict_eq_string (v : value) (s : string) :
  strict_eq v (VStr s) = true -> v = VStr s.
Proof.
  destruct v as [[| | |[]|t]|]; simpl; try discriminate.
  now intros ->%String.eqb_eq.
Qed.

Lemma recalculates_undefined (type : value) : recalculates VUndef type = true.
Proof. unfold recalculates. apply Bool.orb_true_r. Qed.

(** A recalculation allocates the three maps and the [responsiveState]
    object, leaves the objects of [h] alone, calls [extraFields], and
    allocates the merged object it returns. *)
Lemma reducer_recalculates (c : closure) (h : heap) (state type : value)
    (matchMedia : option evaluator) (breakpoints : obj) :
  recalculates state type = true ->
  h !! c_breakpoints c = Some breakpoints ->
  exists (lessThan greaterThan is_ rs : loc) (h4 : heap),
    let mediaType := currentMediaType c state matchMedia in
    let base :=
      responsiveState c lessThan greaterThan is_ mediaType
        (getOrientation matchMedia) in
    h4 !! lessThan = Some (getLessThan mediaType (c_mediaOrdering c))
    /\ h4 !! greaterThan = Some (getGreaterThan mediaType (c_mediaOrdering c))
    /\ h4 !! is_ = Some (getIs mediaType breakpoints)
    /\ h4 !! rs = Some base
    /\ (forall l o, h !! l = Some o -> h4 !! l = Some o)
    /\ reducer c h state type matchMedia
       = (let (extra, h5) := c_extraFields c h4 (VRef rs) in
          extra_props ← own_props h5 extra;
          Some (VRef (length h5), h5 ++ [assign base extra_props])).
Proof.
  intros Hrec Hbps. unfold reducer. rewrite Hrec, Hbps. simpl.
  set (mediaType := currentMediaType c state matchMedia).
  set (a := getLessThan mediaType (c_mediaOrdering c)).
  set (b := getGreaterThan mediaType (c_mediaOrdering c)).
  set (d := getIs mediaType breakpoints).
  exists (length h), (length (h ++ [a])), (length ((h ++ [a]) ++ [b])),
         (length (((h ++ [a]) ++ [b]) ++ [d])).
  eexists. repeat split; cycle 5.
  - match goal with |- ?x ≫= _ = _ =>
      assert (E : x = Some (responsiveState c (length h) (length (h ++ [a]))
                 (length ((h ++ [a]) ++ [b])) mediaType (getOrientation matchMedia)))
        by now apply list_lookup_middle
    end.
    rewrite E. simpl. reflexivity.
  - do 3 apply lookup_app_l_Some. now apply list_lookup_middle.
  - do 2 apply lookup_app_l_Some. now apply list_lookup_middle.
  - apply lookup_app_l_Some. now apply list_lookup_middle.
  - now apply list_lookup_middle.
  - intros l o Hl. now do 4 apply lookup_app_l_Some.
Qed.

(** The factory on a configuration object: the closure it builds and the
    heap it leaves. *)
Lemma factory_on_object (h : heap) (l : loc) (config : obj) (opts : options) :
  h !! l = Some config ->
  let key := default defaultMediaType (infinity opts) in
  let augmented := obj_set key (VNum PosInf) config in
  createResponsiveStateReducer h (VRef l) opts
  = Some ({| c_breakpoints := l;
             c_initialMediaType := initialMediaType opts;
             c_infinity := key;
             c_extraFields :=
               default (fun h _ => let (l, h') := alloc h [] in (VRef l, h'))
                       (extraFields opts);
             c_mediaQueries := MediaQuery_asObject augmented;
             c_mediaOrdering := getOrderMap augmented |},
           <[l := augmented]> h).
Proof.
  intros Hl. unfold createResponsiveStateReducer. simpl. now rewrite Hl.
Qed.

(** C7. Once the state is not undefined, an action of any other type than
    the recalculation type gets the state it came with: the same value, the
    same reference when it is one, and no object is allocated or changed. *)
Theorem reducer_returns_same_state (c : closure) (h : heap) (state type : value)
    (matchMedia : option evaluator) :
  typeof state <> TUndefined ->
  type <> VStr CALCULATE_RESPONSIVE_STATE ->
  reducer c h state type matchMedia = Some (state, h).
Proof.
  intros Hstate Htype. unfold reducer, recalculates.
  destruct (strict_eq type (VStr CALCULATE_RESPONSIVE_STATE)) eqn:E.
  - apply strict_eq_string in E. contradiction.
  - simpl. destruct (typeof state); try reflexivity. contradiction.
Qed.

(** C8. A recalculation builds the [responsiveState] object, calls
    [extraFields] on it, and returns a new object that holds the properties
    of [responsiveState] overlaid with those of the value [extraFields]
    returned: under every name the extra field wins, and the computed one
    stays where there is no extra field.  With [extraFields] returning
    [{mediaType: "override"}] the state of a first run has [mediaType]
    "override" (the resolver gave "infinity"). *)
Theorem reducer_merges_extraFields (c : closure) (h : heap) (state type : value)
    (matchMedia : option evaluator) (breakpoints : obj) :
  recalculates state type = true ->
  h !! c_breakpoints c = Some breakpoints ->
  (exists (lessThan greaterThan is_ rs : loc) (h4 : heap),
     let base :=
       responsiveState c lessThan greaterThan is_
         (currentMediaType c state matchMedia) (getOrientation matchMedia) in
     h4 !! rs = Some base
     /\ forall (extra : value) (h5 : heap) (extra_props : obj),
          c_extraFields c h4 (VRef rs) = (extra, h5) ->
          own_props h5 extra = Some extra_props ->
          exists final : obj,
            reducer c h state type matchMedia
            = Some (VRef (length h5), h5 ++ [final])
            /\ (h5 ++ [final]) !! length h5 = Some final
            /\ (List.NoDup (keys extra_props) ->
                forall k, obj_lookup k final
                          = match obj_lookup k extra_props with
                            | Some v => Some v
                            | None => obj_lookup k base
                            end))
  /\ (let override := fun (h0 : heap) (_ : value) =>
        (VRef (length h0), h0 ++ [[("mediaType", VStr "override")]]) in
      let opts := {| initialMediaType := None; infinity := None;
                     extraFields := Some override |} in
      (sh ← first_state engine imports small_large opts None;
       obj_lookup "mediaType" (fst sh)) = Some (VStr "override")
      /\ getMediaType None (MediaQuery_asObject small_large_infinity)
           defaultMediaType
         = "infinity").
Proof.
  intros Hrec Hbps. split.
  - destruct (reducer_recalculates c h state type matchMedia breakpoints Hrec Hbps)
      as (lessThan & greaterThan & is_ & rs & h4 & _ & _ & _ & Hrs & _ & Hred).
    exists lessThan, greaterThan, is_, rs, h4. split; [exact Hrs|].
    intros extra h5 extra_props Hx Hprops. eexists. repeat split.
    + rewrite Hred, Hx, Hprops. reflexivity.
    + now apply list_lookup_middle.
    + intros Hnd k. now apply assign_lookup.
  - split; [|reflexivity].
    unfold first_state. simpl. unfold reducer.
    rewrite recalculates_undefined. reflexivity.
Qed.


(** C3, as amended.  The reducer built from [{small: 768, large: 1200}] with
    the default options, called once with an undefined state and no
    evaluator, returns a state with [mediaType] "infinity", [orientation]
    null, [lessThan] all false, [greaterThan] true for small and large and
    false for infinity, and [is] false for small and large and true for
    infinity. *)
Theorem first_state_of_small_large (h : heap) (l : loc) (type : value) :
  h !! l = Some [("small", VNum (Fin 768)); ("large", VNum (Fin 1200))] ->
  exists (c : closure) (h1 : heap) (s : loc) (h2 : heap) (st : obj)
         (lessThan greaterThan is_ : loc),
    createResponsiveStateReducer h (VRef l) default_options = Some (c, h1)
    /\ reducer c h1 VUndef type None = Some (VRef s, h2)
    /\ h2 !! s = Some st
    /\ obj_lookup "mediaType" st = Some (VStr "infinity")
    /\ obj_lookup "orientation" st = Some VNull
    /\ obj_lookup "is" st = Some (VRef is_)
    /\ h2 !! is_ = Some [("small", VBool false); ("large", VBool false);
                         ("infinity", VBool true)]
    /\ obj_lookup "lessThan" st = Some (VRef lessThan)
    /\ h2 !! lessThan = Some [("small", VBool false); ("large", VBool false);
                              ("infinity", VBool false)]
    /\ obj_lookup "greaterThan" st = Some (VRef greaterThan)
    /\ h2 !! greaterThan = Some [("small", VBool true); ("large", VBool true);
                                 ("infinity", VBool false)].
Proof.
  intros Hl.
  assert (Hl' : l < length h) by now apply lookup_lt_Some in Hl.
  pose proof (factory_on_object h l _ default_options Hl) as Hf.
  cbv zeta in Hf.
  match type of Hf with _ = Some (?c0, ?h0) => set (c := c0) in *; set (h1 := h0) in * end.
  assert (Hbps : h1 !! c_breakpoints c
                 = Some [("small", VNum (Fin 768)); ("large", VNum (Fin 1200));
                         ("infinity", VNum PosInf)])
    by now apply list_lookup_insert_eq.
  destruct (reducer_recalculates c h1 VUndef type None _
              (recalculates_undefined type) Hbps)
    as (lessThan & greaterThan & is_ & rs & h4 & Hlt & Hgt & His & Hrs & _ & Hred).
  cbv zeta in Hred. simpl c_extraFields in Hred. cbv beta iota in Hred.
  unfold alloc in Hred. unfold own_props in Hred.
  rewrite list_lookup_middle in Hred by reflexivity. simpl in Hred.
  eexists c, h1, _, _, _, lessThan, greaterThan, is_.
  split; [exact Hf|]. split; [exact Hred|].
  split; [now apply list_lookup_middle|].
  repeat split.
  - apply lookup_app_l_Some, lookup_app_l_Some. exact His.
  - apply lookup_app_l_Some, lookup_app_l_Some. exact Hlt.
  - apply lookup_app_l_Some, lookup_app_l_Some. exact Hgt.
Qed.

End Properties.

(** ** Closed instances *)

Ltac distinct_names :=
  repeat constructor; simpl; intuition discriminate.

Lemma getOrderMap_ranks_increase_with_width_witness :
  let bps := [("c", VNum (Fin 300)); ("a", VNum (Fin 100)); ("b", VNum PosInf)] in
  exists i j,
    obj_lookup "a" (getOrderMap (engine := plain_engine) bps) = Some (rank i)
    /\ obj_lookup "c" (getOrderMap (engine := plain_engine) bps) = Some (rank j)
    /\ i < j.
Proof.
  intros bps.
  assert (Hnd : List.NoDup (keys bps)) by distinct_names.
  assert (Hw : Forall (fun kv => is_width (snd kv)) bps)
    by (repeat constructor; eexists; (split; [reflexivity|discriminate])).
  destruct (getOrderMap_ranks_increase_with_width (engine := plain_engine) bps Hnd Hw)
    as [Hmono _].
  apply Hmono. exists (Fin 100), (Fin 300). repeat split.
Defined.

Lemma getOrderMap_numbers_before_strings_witness :
  let bps := [("x", VStr "foo"); ("a", VNum (Fin 100))] in
  exists i j,
    obj_lookup "a" (getOrderMap (engine := plain_engine) bps) = Some (rank i)
    /\ obj_lookup "x" (getOrderMap (engine := plain_engine) bps) = Some (rank j)
    /\ i < j.
Proof.
  intros bps.
  assert (Hnd : List.NoDup (keys bps)) by distinct_names.
  assert (Hv : Forall (fun kv => typeof (snd kv) = TNumber \/ typeof (snd kv) = TString)
                 bps)
    by (repeat constructor; simpl; auto).
  destruct (getOrderMap_numbers_before_strings (engine := plain_engine) bps Hnd Hv)
    as [Horder _].
  apply (Horder "a" "x" (Fin 100) "foo"); reflexivity.
Defined.

(** Why C5 asks for widths: on a pair with a NaN the comparator answers -1
    both ways and orders nothing; the insertion sort then leaves 3 before 1.
    Another engine may leave them otherwise. *)
Example getOrderMap_with_NaN :
  getOrderMap (engine := plain_engine)
    [("a", VNum (Fin 3)); ("b", VNum NaN); ("c", VNum (Fin 1))]
  = [("a", rank 0); ("b", rank 1); ("c", rank 2)].
Proof. reflexivity. Qed.

(** C6 as stated fails: a value that is neither a number nor a string is
    compared with [>=] alone, and [null] sorts before 100. *)
Lemma getOrderMap_null_before_number :
  let bps := [("x", VNull); ("a", VNum (Fin 100))] in
  typeof (obj_get bps "a") = TNumber
  /\ typeof (obj_get bps "x") <> TNumber
  /\ obj_lookup "a" (getOrderMap (engine := plain_engine) bps) = Some (rank 1)
  /\ obj_lookup "x" (getOrderMap (engine := plain_engine) bps) = Some (rank 0).
Proof. repeat split. discriminate. Qed.

Lemma getLessThan_rank0_entry_false_witness :
  obj_lookup "small" (getLessThan (engine := plain_engine) "large" two_ranks)
  = Some (VBool false).
Proof.
  apply (getLessThan_rank0_entry_false (engine := plain_engine) "large" two_ranks "small").
  - distinct_names.
  - reflexivity.
Defined.

Lemma getLessThan_current_rank0_witness :
  obj_lookup "large" (getLessThan (engine := plain_engine) "small" two_ranks)
  = Some (VBool (Nat.ltb 0 1)).
Proof.
  apply (getLessThan_current_rank0 (engine := plain_engine) "small" two_ranks).
  - distinct_names.
  - reflexivity.
  - reflexivity.
Defined.

(** C1 as stated fails: the current media type has rank 0 and the entry of
    rank 1 is mapped to true. *)
Lemma getLessThan_current_rank0_not_all_false :
  obj_lookup "small" two_ranks = Some (rank 0)
  /\ ~ (forall name v,
          obj_lookup name (getLessThan (engine := plain_engine) "small" two_ranks)
          = Some v -> v = VBool false).
Proof.
  split; [reflexivity|]. intros Hall.
  specialize (Hall "large" (VBool true) eq_refl). discriminate.
Qed.

(** C2, at two inputs the reducer can receive.  With the configuration
    [{x: "foo", a: 100}] and no evaluator the media type is "infinity", of
    rank 1, and the string-valued [x] has rank 2: [lessThan.x] is true.
    With [{x: "foo", y: "goo"}] and [initialMediaType: "y"] the current rank
    is 2 and [x] has rank 1: [greaterThan.x] is true.  [getLessThan] and
    [getGreaterThan] test [typeof] on the entries of the order map, which
    are ranks; only [getIs] tests the configured value. *)
Theorem nonnumeric_breakpoint_compared_by_rank :
  (sh ← first_state plain_engine example_imports
          [("x", VStr "foo"); ("a", VNum (Fin 100))] default_options None;
   m ← field_object (snd sh) (fst sh) "lessThan";
   obj_lookup "x" m) = Some (VBool true)
  /\ (sh ← first_state plain_engine example_imports
             [("x", VStr "foo"); ("y", VStr "goo")]
             {| initialMediaType := Some "y"; infinity := None;
                extraFields := None |} None;
      m ← field_object (snd sh) (fst sh) "greaterThan";
      obj_lookup "x" m) = Some (VBool true)
  /\ (sh ← first_state plain_engine example_imports
             [("x", VStr "foo"); ("a", VNum (Fin 100))] default_options None;
      m ← field_object (snd sh) (fst sh) "is";
      obj_lookup "x" m) = Some (VBool false).
Proof. repeat split. Qed.

Lemma getMediaType_last_match_wins_witness :
  getMediaType (Some (fun _ => VBool true))
    [("small", VStr "q1"); ("large", VStr "q2")] "infinity" = "large".
Proof.
  destruct (getMediaType_last_match_wins
              [("small", VStr "q1"); ("large", VStr "q2")] "infinity")
    as (_ & _ & _ & Hboth).
  apply (Hboth (fun _ => VBool true) (VStr "q1") (VStr "q2")); reflexivity.
Defined.

Lemma reducer_returns_same_state_witness :
  reducer (engine := plain_engine) (imports := example_imports) example_closure
    (module_heap ++ [small_large_infinity]) (VRef 1) (VStr "@@redux/INIT") None
  = Some (VRef 1, module_heap ++ [small_large_infinity]).
Proof.
  apply (reducer_returns_same_state (engine := plain_engine)
           (imports := example_imports)).
  - discriminate.
  - discriminate.
Defined.

Lemma reducer_merges_extraFields_witness :
  exists (h5 : heap) (final : obj),
    reducer (engine := plain_engine) (imports := example_imports) override_closure
      (module_heap ++ [small_large_infinity]) VUndef (VStr "@@redux/INIT") None
    = Some (VRef (length h5), h5 ++ [final])
    /\ currentMediaType override_closure VUndef None = "infinity"
    /\ obj_lookup "mediaType" final = Some (VStr "override")
    /\ obj_lookup "orientation" final = Some VNull
    /\ obj_lookup "breakpoints" final = Some (VRef 1).
Proof.
  destruct (reducer_merges_extraFields (engine := plain_engine)
              (imports := example_imports) override_closure
              (module_heap ++ [small_large_infinity]) VUndef
              (VStr "@@redux/INIT") None small_large_infinity)
    as [(lessThan & greaterThan & is_ & rs & h4 & _ & Hmerge) _].
  - reflexivity.
  - reflexivity.
  - destruct (Hmerge (VRef (length h4))
                (h4 ++ [[("mediaType", VStr "override")]])
                [("mediaType", VStr "override")])
      as (final & Hred & _ & Hlaw).
    + reflexivity.
    + now apply list_lookup_middle.
    + assert (Hnd : List.NoDup (keys [("mediaType", VStr "override")]))
        by distinct_names.
      exists (h4 ++ [[("mediaType", VStr "override")]]), final.
      split; [exact Hred|]. split; [reflexivity|].
      rewrite !(Hlaw Hnd). repeat split.
Defined.


Lemma first_state_of_small_large_witness :
  exists (c : closure) (h1 : heap) (s : loc) (h2 : heap),
    createResponsiveStateReducer (engine := plain_engine)
      (imports := example_imports) (module_heap ++ [small_large]) (VRef 1)
      default_options
    = Some (c, h1)
    /\ reducer (engine := plain_engine) (imports := example_imports) c h1 VUndef
         (VStr "@@redux/INIT") None
       = Some (VRef s, h2).
Proof.
  destruct (first_state_of_small_large (engine := plain_engine)
              (imports := example_imports) (module_heap ++ [small_large]) 1
              (VStr "@@redux/INIT"))
    as (c & h1 & s & h2 & st & lessThan & greaterThan & is_ & Hc & Hred & _).
  - reflexivity.
  - exists c, h1, s, h2. split; assumption.
Defined.

(** C3 as stated fails on [is]: the media type of that first state is
    "infinity", the infinity entry is a number, and [is.infinity] is true. *)
Lemma first_state_is_infinity_not_false :
  (sh ← first_state plain_engine example_imports small_large default_options None;
   field_object (snd sh) (fst sh) "is")
  <> Some [("small", VBool false); ("large", VBool false);
           ("infinity", VBool false)].
Proof. vm_compute. discriminate. Qed.

(** * Further properties *)

(** ** Names of an object after an assignment *)

Lemma In_keys_lookup k (o : obj) : In k (keys o) <-> obj_lookup k o <> None.
Proof.
  rewrite obj_lookup_None. destruct (in_dec string_dec k (keys o)); tauto.
Qed.

Lemma In_keys_lookup_Some k (o : obj) :
  In k (keys o) -> exists v, obj_lookup k o = Some v.
Proof.
  intros Hin. apply In_keys_lookup in Hin.
  destruct (obj_lookup k o) as [v|]; [eauto|congruence].
Qed.

Lemma keys_obj_replace k v (o : obj) : keys (obj_replace k v o) = keys o.
Proof.
  induction o as [|[k' v'] o IH]; simpl; [reflexivity|].
  destruct (String.eqb_spec k k') as [->|Hne]; simpl; [reflexivity|].
  now rewrite IH.
Qed.

Lemma keys_obj_insert_index n k v (o : obj) :
  Permutation (keys (obj_insert_index n k v o)) (k :: keys o).
Proof.
  induction o as [|[k' v'] o IH]; simpl; [reflexivity|].
  destruct (array_index k') as [n'|]; [|reflexivity].
  destruct (n' <? n)%N; simpl; [|reflexivity].
  rewrite IH. apply perm_swap.
Qed.

Lemma keys_obj_set_new k v (o : obj) :
  obj_lookup k o = None -> Permutation (keys (obj_set k v o)) (k :: keys o).
Proof.
  intros Hk. unfold obj_set, has_key. rewrite Hk.
  destruct (array_index k) as [n|].
  - apply keys_obj_insert_index.
  - unfold keys. rewrite map_app. simpl.
    symmetry. apply Permutation_cons_append.
Qed.

Lemma NoDup_obj_set k v (o : obj) :
  List.NoDup (keys o) -> List.NoDup (keys (obj_set k v o)).
Proof.
  intros Hnd. destruct (obj_lookup k o) as [v0|] eqn:Hk.
  - unfold obj_set, has_key. rewrite Hk. now rewrite keys_obj_replace.
  - eapply Permutation.Permutation_NoDup.
    + symmetry. now apply keys_obj_set_new.
    + constructor; [now apply obj_lookup_None|assumption].
Qed.

Lemma In_keys_obj_set k k0 v (o : obj) :
  In k0 (keys (obj_set k v o)) <-> k0 = k \/ In k0 (keys o).
Proof.
  rewrite !In_keys_lookup. destruct (string_dec k0 k) as [->|Hne].
  - rewrite obj_lookup_set_eq. split; [auto|discriminate].
  - rewrite obj_lookup_set_ne by assumption. tauto.
Qed.

Lemma obj_replace_same k v (o : obj) :
  obj_lookup k o = Some v -> obj_replace k v o = o.
Proof.
  induction o as [|[k' v'] o IH]; simpl; [discriminate|].
  destruct (String.eqb_spec k k') as [->|Hne].
  - now intros [= ->].
  - intros Hk. now rewrite IH.
Qed.

Lemma obj_set_idempotent k v (o : obj) :
  obj_set k v (obj_set k v o) = obj_set k v o.
Proof.
  unfold obj_set at 1. unfold has_key. rewrite obj_lookup_set_eq.
  apply obj_replace_same, obj_lookup_set_eq.
Qed.

(** A loop of assignments keeps an object free of repeated names. *)
Lemma fold_assignments_NoDup (it : obj -> value -> string -> obj)
    (g : value -> string -> option value) :
  (forall r v k,
     it r v k = match g v k with Some x => obj_set k x r | None => r end) ->
  forall (o acc : obj),
    List.NoDup (keys acc) ->
    List.NoDup (keys (fold_left (fun r kv => it r (snd kv) (fst kv)) o acc)).
Proof.
  intros Hit o. induction o as [|[k0 v0] o IH]; intros acc Hacc; simpl.
  - assumption.
  - apply IH. rewrite Hit. destruct (g v0 k0); [now apply NoDup_obj_set|assumption].
Qed.

Lemma transform_NoDup (it : obj -> value -> string -> obj)
    (g : value -> string -> option value) (o : obj) :
  (forall r v k,
     it r v k = match g v k with Some x => obj_set k x r | None => r end) ->
  List.NoDup (keys (transform o it)).
Proof.
  intros Hit. unfold transform.
  apply (fold_assignments_NoDup it g Hit). constructor.
Qed.

Section More.
Context {engine : Engine} {imports : Imports}.

(** ** getOrderMap *)

Lemma getOrderMap_NoDup (bps : obj) : List.NoDup (keys (getOrderMap bps)).
Proof.
  unfold getOrderMap.
  apply (transform_NoDup _
    (fun _ k => rank <$> indexOf k (array_sort (compare_keys bps) (keys bps)))).
  intros r v k. now destruct (indexOf k _).
Qed.

Lemma keys_length (o : obj) : length (keys o) = length o.
Proof. unfold keys. apply length_map. Qed.

(** X1. Whatever the values of the configuration are, [getOrderMap] numbers
    its names: every name gets a rank below the number of names, a name
    outside the configuration gets none, two names never share a rank, and
    every rank below the number of names is taken. *)
Theorem getOrderMap_ranks_enumerate (bps : obj) :
  List.NoDup (keys bps) ->
  (forall k, In k (keys bps) ->
     exists i, i < length bps /\ obj_lookup k (getOrderMap bps) = Some (rank i))
  /\ (forall k, ~ In k (keys bps) -> obj_lookup k (getOrderMap bps) = None)
  /\ (forall a b i,
        obj_lookup a (getOrderMap bps) = Some (rank i) ->
        obj_lookup b (getOrderMap bps) = Some (rank i) -> a = b)
  /\ (forall i, i < length bps ->
        exists k, In k (keys bps)
                  /\ obj_lookup k (getOrderMap bps) = Some (rank i)).
Proof.
  intros Hnd. set (ks := array_sort (compare_keys bps) (keys bps)).
  assert (Hlen : length ks = length bps)
    by (unfold ks; now rewrite array_sort_length, keys_length).
  assert (Hidx : forall k i, obj_lookup k (getOrderMap bps) = Some (rank i) ->
                             ks !! i = Some k).
  { intros k i. rewrite getOrderMap_lookup by assumption.
    destruct (obj_lookup k bps); [|discriminate]. fold ks.
    destruct (indexOf k ks) as [j|] eqn:Hj; [|discriminate].
    intros [= Hij]. apply Nat2Z.inj in Hij as ->. now apply indexOf_lookup. }
  repeat split.
  - intros k Hin. destruct (In_keys_lookup_Some k bps Hin) as [v Hv].
    destruct (getOrderMap_lookup_Some bps k v Hnd Hv) as (i & Hi & Hr).
    exists i. split; [|assumption].
    apply indexOf_lookup, lookup_lt_Some in Hi. fold ks in Hi. lia.
  - intros k Hnot. rewrite getOrderMap_lookup by assumption.
    apply obj_lookup_None in Hnot. now rewrite Hnot.
  - intros a b i Ha Hb. apply Hidx in Ha, Hb. congruence.
  - intros i Hi. destruct (lookup_lt_is_Some_2 ks i) as [k Hk]; [lia|].
    exists k. split.
    + apply (array_sort_In (compare_keys bps)). fold ks.
      apply list_elem_of_In. eapply list_elem_of_lookup_2, Hk.
    + now apply getOrderMap_sorted_keys.
Qed.

(** ** The three maps *)

(** X2. The three maps are maps of booleans over the names they were given:
    no name twice, the names of the order map (of the configuration, for
    [getIs]), and a boolean under each. *)
Theorem comparison_maps_are_boolean_maps cur (om bps : obj) :
  List.NoDup (keys om) -> List.NoDup (keys bps) ->
  boolean_map_of om (getLessThan cur om)
  /\ boolean_map_of om (getGreaterThan cur om)
  /\ boolean_map_of bps (getIs cur bps).
Proof.
  intros Hom Hbps. repeat split.
  - unfold getLessThan.
    apply (transform_NoDup _ (fun v k =>
      Some (VBool (jstype_eqb (typeof v) TNumber && truthy (obj_get om k)
                   && js_lt (obj_get om cur) (obj_get om k))))).
    intros r v k.
    now destruct (jstype_eqb (typeof v) TNumber && truthy (obj_get om k)).
  - rewrite !In_keys_lookup, getLessThan_lookup by assumption.
    now destruct (obj_lookup k om).
  - rewrite !In_keys_lookup, getLessThan_lookup by assumption.
    now destruct (obj_lookup k om).
  - intros k v. rewrite getLessThan_lookup by assumption.
    destruct (obj_lookup k om); [|discriminate]. intros [= <-]. eauto.
  - unfold getGreaterThan.
    apply (transform_NoDup _ (fun v k =>
      Some (VBool (jstype_eqb (typeof v) TNumber
                   && js_gt (obj_get om cur) (obj_get om k))))).
    intros r v k. now destruct (jstype_eqb (typeof v) TNumber).
  - rewrite !In_keys_lookup, getGreaterThan_lookup by assumption.
    now destruct (obj_lookup k om).
  - rewrite !In_keys_lookup, getGreaterThan_lookup by assumption.
    now destruct (obj_lookup k om).
  - intros k v. rewrite getGreaterThan_lookup by assumption.
    destruct (obj_lookup k om); [|discriminate]. intros [= <-]. eauto.
  - unfold getIs.
    apply (transform_NoDup _ (fun v k =>
      Some (VBool (jstype_eqb (typeof v) TNumber && truthy (obj_get bps k)
                   && String.eqb k cur)))).
    intros r v k.
    now destruct (jstype_eqb (typeof v) TNumber && truthy (obj_get bps k)).
  - rewrite !In_keys_lookup, getIs_lookup by assumption.
    now destruct (obj_lookup k bps).
  - rewrite !In_keys_lookup, getIs_lookup by assumption.
    now destruct (obj_lookup k bps).
  - intros k v. rewrite getIs_lookup by assumption.
    destruct (obj_lookup k bps); [|discriminate]. intros [= <-]. eauto.
Qed.

Lemma rank_comparisons cur (om : obj) c name r :
  List.NoDup (keys om) ->
  obj_lookup cur om = Some (rank c) ->
  obj_lookup name om = Some (rank r) ->
  obj_lookup name (getLessThan cur om) = Some (VBool (Nat.ltb c r))
  /\ obj_lookup name (getGreaterThan cur om) = Some (VBool (Nat.ltb r c)).
Proof.
  intros Hnd Hcur Hname.
  rewrite getLessThan_lookup, getGreaterThan_lookup, Hname by assumption.
  rewrite (obj_get_Some om name _ Hname), (obj_get_Some om cur _ Hcur).
  unfold js_gt. rewrite truthy_rank, !js_lt_ranks. split; [|reflexivity].
  do 2 f_equal. destruct r; simpl; [|reflexivity].
  now destruct c.
Qed.

(** X3. On an order map of ranks that holds the current media type, an
    entry of [getLessThan] is true exactly when the current rank is below
    the rank of the entry, and an entry of [getGreaterThan] exactly when it
    is above: the guard of [getLessThan] on rank 0 changes nothing there.
    The two are never true together, and both are false at the current
    media type. *)
Theorem comparison_maps_compare_ranks cur (om : obj) c :
  List.NoDup (keys om) ->
  obj_lookup cur om = Some (rank c) ->
  (forall name r,
     obj_lookup name om = Some (rank r) ->
     obj_lookup name (getLessThan cur om) = Some (VBool (Nat.ltb c r))
     /\ obj_lookup name (getGreaterThan cur om) = Some (VBool (Nat.ltb r c)))
  /\ (forall name,
        ~ (obj_lookup name (getLessThan cur om) = Some (VBool true)
           /\ obj_lookup name (getGreaterThan cur om) = Some (VBool true)))
  /\ obj_lookup cur (getLessThan cur om) = Some (VBool false)
  /\ obj_lookup cur (getGreaterThan cur om) = Some (VBool false).
Proof.
  intros Hnd Hcur.
  assert (Hrank : forall name r,
     obj_lookup name om = Some (rank r) ->
     obj_lookup name (getLessThan cur om) = Some (VBool (Nat.ltb c r))
     /\ obj_lookup name (getGreaterThan cur om) = Some (VBool (Nat.ltb r c))).
  { intros name r Hname. now apply rank_comparisons. }
  split; [exact Hrank|]. split.
  - intros name [Hlt Hgt].
    rewrite getLessThan_lookup in Hlt by assumption.
    rewrite getGreaterThan_lookup in Hgt by assumption.
    destruct (obj_lookup name om) as [v|]; [|discriminate].
    injection Hlt as Hlt. injection Hgt as Hgt.
    apply andb_prop in Hlt as [_ Hlt]. apply andb_prop in Hgt as [_ Hgt].
    unfold js_gt, js_lt in Hlt, Hgt. unfold js_lt_opt in Hlt, Hgt.
    rewrite (obj_get_Some om cur _ Hcur) in Hlt, Hgt.
    unfold rank in Hlt, Hgt. simpl to_primitive in Hlt, Hgt.
    destruct (to_primitive (obj_get om name)) as [| |[]|n|s];
      simpl ToNumber in Hlt, Hgt; cbv beta iota in Hlt, Hgt.
    all: try discriminate.
    all: match type of Hlt with
         | context [num_lt ?x ?y] =>
             pose proof (num_lt_ge x y) as Hge; unfold num_ge in Hge;
             destruct (num_lt x y) as [[|]|]; try discriminate;
             specialize (Hge eq_refl); rewrite Hge in Hgt; discriminate
         end.
  - destruct (Hrank cur c Hcur) as [Hlt Hgt].
    rewrite Nat.ltb_irrefl in Hlt, Hgt. now split.
Qed.

Lemma js_lt_undefined_l x : js_lt VUndef x = false.
Proof.
  unfold js_lt, js_lt_opt. simpl. now destruct (to_primitive x).
Qed.

Lemma js_lt_undefined_r x : js_lt x VUndef = false.
Proof.
  unfold js_lt, js_lt_opt. simpl.
  destruct (to_primitive x) as [| |[]|n|s]; simpl; try reflexivity.
  - now destruct n.
  - now destruct (StringToNumber s).
Qed.

(** X4. When the current media type is not a name of the order map, its
    rank reads as [undefined] and no comparison succeeds: every entry of
    [getLessThan] and of [getGreaterThan] is false. *)
Theorem comparison_maps_of_unknown_type cur (om : obj) :
  List.NoDup (keys om) ->
  obj_lookup cur om = None ->
  forall name, In name (keys om) ->
    obj_lookup name (getLessThan cur om) = Some (VBool false)
    /\ obj_lookup name (getGreaterThan cur om) = Some (VBool false).
Proof.
  intros Hnd Hcur name Hin.
  destruct (In_keys_lookup_Some name om Hin) as [v Hv].
  rewrite getLessThan_lookup, getGreaterThan_lookup, Hv by assumption.
  unfold obj_get at 2 4. rewrite Hcur. unfold js_gt.
  rewrite js_lt_undefined_l, js_lt_undefined_r, !Bool.andb_false_r. now split.
Qed.

(** X5. [getIs] marks the current media type and nothing else, and marks it
    only when its configured value is a truthy number: a name is mapped to
    true exactly when it is the current media type and that value is a
    number other than 0 and NaN.  So at most one entry is true, and none
    when the current type is unknown, not a number, or of width 0. *)
Theorem getIs_marks_current_only cur (bps : obj) :
  List.NoDup (keys bps) ->
  (forall name,
     obj_lookup name (getIs cur bps) = Some (VBool true)
     <-> name = cur
         /\ exists v, obj_lookup cur bps = Some v
                      /\ typeof v = TNumber /\ truthy v = true)
  /\ (forall a b,
        obj_lookup a (getIs cur bps) = Some (VBool true) ->
        obj_lookup b (getIs cur bps) = Some (VBool true) -> a = b).
Proof.
  intros Hnd.
  assert (Hiff : forall name,
     obj_lookup name (getIs cur bps) = Some (VBool true)
     <-> name = cur
         /\ exists v, obj_lookup cur bps = Some v
                      /\ typeof v = TNumber /\ truthy v = true).
  { intros name. rewrite getIs_lookup by assumption. split.
    - destruct (obj_lookup name bps) as [v|] eqn:Hv; [|discriminate].
      intros [= Hb]. apply andb_prop in Hb as [Hb Heq].
      apply andb_prop in Hb as [Hty Htr]. apply String.eqb_eq in Heq as ->.
      split; [reflexivity|]. exists v. rewrite (obj_get_Some _ _ _ Hv) in Htr.
      repeat split; try assumption. now destruct (typeof v).
    - intros [-> (v & Hv & Hty & Htr)]. rewrite Hv.
      rewrite (obj_get_Some _ _ _ Hv), Hty, Htr, String.eqb_refl. reflexivity. }
  split; [exact Hiff|].
  intros a b Ha Hb. apply Hiff in Ha as [-> _]. now apply Hiff in Hb as [-> _].
Qed.

(** ** The order map and the maps together *)

Lemma narrower_lower_rank (bps : obj) a b :
  List.NoDup (keys bps) ->
  Forall (fun kv => is_width (snd kv)) bps ->
  narrower (obj_get bps a) (obj_get bps b) ->
  exists i j, obj_lookup a (getOrderMap bps) = Some (rank i)
              /\ obj_lookup b (getOrderMap bps) = Some (rank j)
              /\ i < j.
Proof.
  intros Hnd Hw Hab. pose proof (sorted_widths bps Hw) as Hs.
  pose proof Hab as (x & y & Ha & Hb & Hlt).
  apply obj_get_lookup in Ha; [|discriminate].
  apply obj_get_lookup in Hb; [|discriminate].
  destruct (getOrderMap_lookup_Some bps a _ Hnd Ha) as (i & Hi & Hra).
  destruct (getOrderMap_lookup_Some bps b _ Hnd Hb) as (j & Hj & Hrb).
  exists i, j. repeat split; try assumption.
  apply indexOf_lookup in Hi, Hj.
  destruct (Nat.lt_total i j) as [Hlt'|[->|Hgt]]; [assumption| |].
  - exfalso. assert (a = b) as -> by congruence.
    apply (num_lt_irrefl x). rewrite Hb in Ha. injection Ha as ->. assumption.
  - exfalso. exact (StronglySorted_lookup _ _ j i b a Hs Hj Hi Hgt Hab).
Qed.

(** X6. On a configuration of widths the maps computed from its order map
    follow the widths: when the current breakpoint is strictly narrower than
    another one, that one is true in [lessThan] and false in [greaterThan];
    and seen from the wider one, the narrower is true in [greaterThan] and
    false in [lessThan]. *)
Theorem widths_decide_comparisons (bps : obj) :
  List.NoDup (keys bps) ->
  Forall (fun kv => is_width (snd kv)) bps ->
  forall narrow wide,
    narrower (obj_get bps narrow) (obj_get bps wide) ->
    let om := getOrderMap bps in
    obj_lookup wide (getLessThan narrow om) = Some (VBool true)
    /\ obj_lookup wide (getGreaterThan narrow om) = Some (VBool false)
    /\ obj_lookup narrow (getGreaterThan wide om) = Some (VBool true)
    /\ obj_lookup narrow (getLessThan wide om) = Some (VBool false).
Proof.
  intros Hnd Hw narrow wide Hnw om.
  destruct (narrower_lower_rank bps narrow wide Hnd Hw Hnw)
    as (i & j & Hi & Hj & Hij).
  pose proof (getOrderMap_NoDup bps) as Hom.
  destruct (rank_comparisons narrow om i wide j Hom Hi Hj) as [H1 H2].
  destruct (rank_comparisons wide om j narrow i Hom Hj Hi) as [H3 H4].
  assert (E1 : Nat.ltb i j = true) by now apply Nat.ltb_lt.
  assert (E2 : Nat.ltb j i = false) by (apply Nat.ltb_ge; lia).
  rewrite E1 in H1, H4. rewrite E2 in H2, H3. now repeat split.
Qed.

(** ** The resolvers *)

(** X7. [getOrientation] answers null without an evaluator; with one it
    answers "landscape" when the landscape query matches, whatever the
    portrait query does, "portrait" when only the portrait query matches,
    and null when neither does. *)
Theorem getOrientation_cases :
  getOrientation None = VNull
  /\ forall matchMedia : evaluator,
       getOrientation (Some matchMedia)
       = if truthy (matchMedia landscape_query) then VStr "landscape"
         else if truthy (matchMedia portrait_query) then VStr "portrait"
         else VNull.
Proof.
  split; [reflexivity|]. intros matchMedia. unfold getOrientation, reduce. simpl.
  fold portrait_query landscape_query.
  now destruct (truthy (matchMedia landscape_query)),
               (truthy (matchMedia portrait_query)).
Qed.

(** X8. [getMediaType] answers the fallback or the name of one of the
    queries.  With an evaluator, if some query matches then the answer names
    a query that matches, and if none matches the answer is the fallback. *)
Theorem getMediaType_answers (matchMedia : option evaluator) (queries : obj)
    (fallback : string) :
  (getMediaType matchMedia queries fallback = fallback
   \/ In (getMediaType matchMedia queries fallback) (keys queries))
  /\ (forall f, matchMedia = Some f ->
        (exists k q, In (k, q) queries /\ truthy (f q) = true) ->
        exists q, In (getMediaType matchMedia queries fallback, q) queries
                  /\ truthy (f q) = true)
  /\ (forall f, matchMedia = Some f ->
        (forall k q, In (k, q) queries -> truthy (f q) = false) ->
        getMediaType matchMedia queries fallback = fallback).
Proof.
  destruct matchMedia as [f|]; simpl.
  - unfold reduce. rewrite (fold_last_match f queries fallback).
    destruct (find (fun kv => truthy (f (snd kv))) (rev queries))
      as [[k q]|] eqn:Hfind.
    + apply find_some in Hfind as [Hin Hq]. apply in_rev in Hin. simpl in Hq.
      repeat split.
      * right. simpl. change (In k (map fst queries)).
        apply in_map_iff. now exists (k, q).
      * intros f' [= <-] _. exists q. now split.
      * intros f' [= <-] Hnone. specialize (Hnone k q Hin). congruence.
    + repeat split; [now left|].
      intros f' [= <-] (k & q & Hin & Hq). exfalso.
      pose proof (find_none _ _ Hfind (k, q)) as Hn. simpl in Hn.
      rewrite Hn in Hq; [discriminate|]. now apply in_rev in Hin.
  - repeat split; try discriminate. now left.
Qed.

(** ** The factory *)

Lemma factory_on_falsy (h : heap) (v : value) (o : obj) (opts : options) :
  truthy v = false ->
  h !! defaultBreakpoints_loc = Some o ->
  let key := default defaultMediaType (infinity opts) in
  let augmented := obj_set key (VNum PosInf) o in
  createResponsiveStateReducer h v opts
  = Some ({| c_breakpoints := defaultBreakpoints_loc;
             c_initialMediaType := initialMediaType opts;
             c_infinity := key;
             c_extraFields :=
               default (fun h _ => let (l, h') := alloc h [] in (VRef l, h'))
                       (extraFields opts);
             c_mediaQueries := MediaQuery_asObject augmented;
             c_mediaOrdering := getOrderMap augmented |},
           <[defaultBreakpoints_loc := augmented]> h).
Proof.
  intros Hv Ho. unfold createResponsiveStateReducer. rewrite Hv.
  cbn [negb]. now rewrite Ho.
Qed.

(** X9. Without a configuration (null, undefined or any other falsy value)
    the factory works on the [defaultBreakpoints] object of the module and
    adds the infinity entry to that shared object.  Two reducers built this
    way with different infinity names share it: after the second call the
    object holds both entries, while the order map the first reducer
    captured has no rank for the second name. *)
Theorem factory_shares_defaultBreakpoints (h : heap) (o : obj) (v1 v2 : value)
    (opts1 opts2 : options) :
  truthy v1 = false -> truthy v2 = false ->
  h !! defaultBreakpoints_loc = Some o ->
  List.NoDup (keys o) ->
  let a := default defaultMediaType (infinity opts1) in
  let b := default defaultMediaType (infinity opts2) in
  a <> b -> obj_lookup b o = None ->
  exists c1 h1 c2 h2 shared,
    createResponsiveStateReducer h v1 opts1 = Some (c1, h1)
    /\ createResponsiveStateReducer h1 v2 opts2 = Some (c2, h2)
    /\ c_breakpoints c1 = defaultBreakpoints_loc
    /\ c_breakpoints c2 = defaultBreakpoints_loc
    /\ h2 !! defaultBreakpoints_loc = Some shared
    /\ obj_lookup a shared = Some (VNum PosInf)
    /\ obj_lookup b shared = Some (VNum PosInf)
    /\ (forall k, k <> a -> k <> b -> obj_lookup k shared = obj_lookup k o)
    /\ obj_lookup b (c_mediaOrdering c1) = None
    /\ (exists r, obj_lookup b (c_mediaOrdering c2) = Some (rank r)).
Proof.
  intros Hv1 Hv2 Ho Hnd a b Hab Hb.
  assert (Hlen : defaultBreakpoints_loc < length h) by now apply lookup_lt_Some in Ho.
  pose proof (factory_on_falsy h v1 o opts1 Hv1 Ho) as F1. cbv zeta in F1.
  fold a in F1.
  set (o1 := obj_set a (VNum PosInf) o) in *.
  set (h1 := <[defaultBreakpoints_loc := o1]> h) in *.
  assert (Ho1 : h1 !! defaultBreakpoints_loc = Some o1)
    by now apply list_lookup_insert_eq.
  pose proof (factory_on_falsy h1 v2 o1 opts2 Hv2 Ho1) as F2. cbv zeta in F2.
  fold b in F2.
  set (o2 := obj_set b (VNum PosInf) o1) in *.
  assert (Hnd1 : List.NoDup (keys o1)) by now apply NoDup_obj_set.
  assert (Hnd2 : List.NoDup (keys o2)) by now apply NoDup_obj_set.
  do 4 eexists. exists o2.
  split; [exact F1|]. split; [exact F2|].
  repeat split.
  - apply list_lookup_insert_eq. unfold h1. now rewrite length_insert.
  - unfold o2. rewrite obj_lookup_set_ne by assumption. apply obj_lookup_set_eq.
  - apply obj_lookup_set_eq.
  - intros k Ha Hk. unfold o2, o1. now rewrite !obj_lookup_set_ne by assumption.
  - simpl. rewrite getOrderMap_lookup by assumption.
    unfold o1. rewrite obj_lookup_set_ne by congruence. now rewrite Hb.
  - simpl. destruct (getOrderMap_lookup_Some o2 b (VNum PosInf) Hnd2) as (r & _ & Hr).
    + apply obj_lookup_set_eq.
    + now exists r.
Qed.

(** X10. Building a second reducer from the same configuration object with
    the same options changes nothing more: the object keeps its single
    infinity entry, the heap stays as the first call left it, and the second
    reducer has captured the same values as the first. *)
Theorem factory_twice_same (h : heap) (l : loc) (config : obj) (opts : options) :
  h !! l = Some config ->
  exists c h1,
    createResponsiveStateReducer h (VRef l) opts = Some (c, h1)
    /\ createResponsiveStateReducer h1 (VRef l) opts = Some (c, h1).
Proof.
  intros Hl.
  assert (Hlen : l < length h) by now apply lookup_lt_Some in Hl.
  pose proof (factory_on_object h l config opts Hl) as F1. cbv zeta in F1.
  set (key := default defaultMediaType (infinity opts)) in *.
  set (o1 := obj_set key (VNum PosInf) config) in *.
  assert (Ho1 : (<[l := o1]> h) !! l = Some o1) by now apply list_lookup_insert_eq.
  pose proof (factory_on_object (<[l := o1]> h) l o1 opts Ho1) as F2.
  cbv zeta in F2. fold key in F2.
  assert (E1 : obj_set key (VNum PosInf) o1 = o1) by apply obj_set_idempotent.
  rewrite E1 in F2. rewrite (list_insert_id _ _ _ Ho1) in F2.
  do 2 eexists. split; [exact F1|exact F2].
Qed.

(** ** The reducer with the default [extraFields] *)

Lemma recalculates_on_type (state : value) :
  recalculates state (VStr CALCULATE_RESPONSIVE_STATE) = true.
Proof. unfold recalculates. simpl. now rewrite String.eqb_refl. Qed.

(** A recalculation with the default [extraFields]: the state it returns is
    a new object with the properties of [responsiveState]. *)
Lemma reducer_default (c : closure) (h : heap) (state type : value)
    (matchMedia : option evaluator) (breakpoints : obj) :
  c_extraFields c = default_extraFields ->
  recalculates state type = true ->
  h !! c_breakpoints c = Some breakpoints ->
  exists (lessThan greaterThan is_ s : loc) (h' : heap),
    let mediaType := currentMediaType c state matchMedia in
    reducer c h state type matchMedia = Some (VRef s, h')
    /\ h' !! s = Some (responsiveState c lessThan greaterThan is_ mediaType
                         (getOrientation matchMedia))
    /\ h !! s = None
    /\ (forall l o, h !! l = Some o -> h' !! l = Some o)
    /\ h' !! lessThan = Some (getLessThan mediaType (c_mediaOrdering c))
    /\ h' !! greaterThan = Some (getGreaterThan mediaType (c_mediaOrdering c))
    /\ h' !! is_ = Some (getIs mediaType breakpoints).
Proof.
  intros Hxf Hrec Hbps.
  destruct (reducer_recalculates c h state type matchMedia breakpoints Hrec Hbps)
    as (lessThan & greaterThan & is_ & rs & h4 & Hlt & Hgt & His & Hrs & Hframe
        & Hred).
  cbv zeta in Hred. rewrite Hxf in Hred.
  unfold default_extraFields, alloc, own_props in Hred.
  rewrite list_lookup_middle in Hred by reflexivity. simpl in Hred.
  assert (Hlen : length h <= length h4).
  { destruct (decide (length h = 0)) as [->|Hne]; [lia|].
    destruct (lookup_lt_is_Some_2 h (length h - 1)) as [o Ho]; [lia|].
    apply Hframe, lookup_lt_Some in Ho. lia. }
  exists lessThan, greaterThan, is_, (length (h4 ++ [[]])),
         ((h4 ++ [[]]) ++
          [responsiveState c lessThan greaterThan is_
             (currentMediaType c state matchMedia) (getOrientation matchMedia)]).
  cbv zeta. split; [exact Hred|]. split; [now apply list_lookup_middle|].
  split; [apply lookup_ge_None_2; rewrite length_app; simpl; lia|].
  repeat split.
  - intros l o Hl. now apply lookup_app_l_Some, lookup_app_l_Some, Hframe.
  - now apply lookup_app_l_Some, lookup_app_l_Some.
  - now apply lookup_app_l_Some, lookup_app_l_Some.
  - now apply lookup_app_l_Some, lookup_app_l_Some.
Qed.

(** X11. With the default [extraFields] a recalculation never hands back an
    object that existed before: the state it returns is newly allocated, so
    it differs from the state it was given, and every object of the heap
    keeps its properties.  There is no memoisation: recalculating again from
    that state gives yet another object and leaves the first one as it
    was. *)
Theorem recalculation_returns_new_object (c : closure) (h : heap)
    (state type : value) (matchMedia : option evaluator) (breakpoints : obj) :
  c_extraFields c = default_extraFields ->
  recalculates state type = true ->
  h !! c_breakpoints c = Some breakpoints ->
  exists (s : loc) (h' : heap) (st : obj),
    reducer c h state type matchMedia = Some (VRef s, h')
    /\ h' !! s = Some st
    /\ h !! s = None
    /\ (forall p o, state = VRef p -> h !! p = Some o -> p <> s)
    /\ (forall l o, h !! l = Some o -> h' !! l = Some o)
    /\ exists (s2 : loc) (h2 : heap),
         reducer c h' (VRef s) (VStr CALCULATE_RESPONSIVE_STATE) matchMedia
         = Some (VRef s2, h2)
         /\ s2 <> s
         /\ h2 !! s = Some st.
Proof.
  intros Hxf Hrec Hbps.
  destruct (reducer_default c h state type matchMedia breakpoints Hxf Hrec Hbps)
    as (lessThan & greaterThan & is_ & s & h' & Hred & Hs & Hfresh & Hframe & _).
  cbv zeta in Hred, Hs.
  destruct (reducer_default c h' (VRef s) (VStr CALCULATE_RESPONSIVE_STATE)
              matchMedia breakpoints Hxf (recalculates_on_type _)
              (Hframe _ _ Hbps))
    as (_ & _ & _ & s2 & h2 & Hred2 & _ & Hfresh2 & Hframe2 & _).
  cbv zeta in Hred2.
  exists s, h'. eexists. split; [exact Hred|]. split; [exact Hs|].
  split; [exact Hfresh|]. split; [|split; [exact Hframe|]].
  - intros p o _ Hp ->. congruence.
  - exists s2, h2. split; [exact Hred2|]. split.
    + intros ->. congruence.
    + now apply Hframe2.
Qed.

(** X12. [initialMediaType] decides the media type as long as the state is
    falsy, whatever the evaluator says; once the state is an object a
    recalculation takes the media type from the evaluator and the initial
    one is not used any more. *)
Theorem initialMediaType_until_first_state (c : closure) (h : heap)
    (breakpoints : obj) (initial : string) :
  c_initialMediaType c = Some initial -> initial <> "" ->
  c_extraFields c = default_extraFields ->
  h !! c_breakpoints c = Some breakpoints ->
  (forall state type matchMedia,
     truthy state = false -> recalculates state type = true ->
     exists s h' st,
       reducer c h state type matchMedia = Some (VRef s, h')
       /\ h' !! s = Some st
       /\ obj_lookup "mediaType" st = Some (VStr initial))
  /\ (forall p matchMedia,
        exists s h' st,
          reducer c h (VRef p) (VStr CALCULATE_RESPONSIVE_STATE) matchMedia
          = Some (VRef s, h')
          /\ h' !! s = Some st
          /\ obj_lookup "mediaType" st
             = Some (VStr (getMediaType matchMedia (c_mediaQueries c)
                             (c_infinity c)))).
Proof.
  intros Hinit Hne Hxf Hbps. split.
  - intros state type matchMedia Hfalsy Hrec.
    destruct (reducer_default c h state type matchMedia breakpoints Hxf Hrec Hbps)
      as (lessThan & greaterThan & is_ & s & h' & Hred & Hs & _).
    cbv zeta in Hred, Hs. exists s, h'. eexists.
    split; [exact Hred|]. split; [exact Hs|].
    unfold currentMediaType. rewrite Hinit, Hfalsy. simpl.
    apply String.eqb_neq in Hne. now rewrite Hne.
  - intros p matchMedia.
    destruct (reducer_default c h (VRef p) (VStr CALCULATE_RESPONSIVE_STATE)
                matchMedia breakpoints Hxf (recalculates_on_type _) Hbps)
      as (lessThan & greaterThan & is_ & s & h' & Hred & Hs & _).
    cbv zeta in Hred, Hs. exists s, h'. eexists.
    split; [exact Hred|]. split; [exact Hs|].
    unfold currentMediaType. now rewrite Hinit.
Qed.

(** The first call of a reducer built with no [initialMediaType] and the
    default [extraFields], when the action carries no evaluator. *)
Lemma first_call_without_evaluator (h : heap) (l : loc) (config : obj)
    (opts : options) (type : value) :
  h !! l = Some config ->
  initialMediaType opts = None -> extraFields opts = None ->
  let key := default defaultMediaType (infinity opts) in
  let augmented := obj_set key (VNum PosInf) config in
  exists c h1 s h2 lessThan greaterThan is_,
    createResponsiveStateReducer h (VRef l) opts = Some (c, h1)
    /\ reducer c h1 VUndef type None = Some (VRef s, h2)
    /\ h2 !! s = Some (responsiveState c lessThan greaterThan is_ key VNull)
    /\ c_breakpoints c = l
    /\ h2 !! lessThan = Some (getLessThan key (getOrderMap augmented))
    /\ h2 !! greaterThan = Some (getGreaterThan key (getOrderMap augmented))
    /\ h2 !! is_ = Some (getIs key augmented).
Proof.
  intros Hl Hinit Hxf key augmented.
  assert (Hlen : l < length h) by now apply lookup_lt_Some in Hl.
  pose proof (factory_on_object h l config opts Hl) as F. cbv zeta in F.
  fold key in F. fold augmented in F. rewrite Hinit, Hxf in F. simpl default in F.
  match type of F with _ = Some (?c0, ?h0) => set (c := c0) in *; set (h1 := h0) in * end.
  assert (Hbps : h1 !! c_breakpoints c = Some augmented)
    by now apply list_lookup_insert_eq.
  destruct (reducer_default c h1 VUndef type None augmented eq_refl
              (recalculates_undefined type) Hbps)
    as (lessThan & greaterThan & is_ & s & h2 & Hred & Hs & _ & _ & Hlt & Hgt & His).
  exists c, h1, s, h2, lessThan, greaterThan, is_.
  repeat split; assumption.
Qed.

(** X13. Whatever the configuration holds, the first state of a reducer
    built with no [initialMediaType] and the default [extraFields], computed
    without an evaluator, has the infinity name as its media type and null
    as its orientation, and its [is] map is true at the infinity name and
    false at every other name of the configuration. *)
Theorem first_state_is_the_infinity_type (h : heap) (l : loc) (config : obj)
    (opts : options) (type : value) :
  h !! l = Some config -> List.NoDup (keys config) ->
  initialMediaType opts = None -> extraFields opts = None ->
  let key := default defaultMediaType (infinity opts) in
  exists c h1 s h2 st is_ is_map,
    createResponsiveStateReducer h (VRef l) opts = Some (c, h1)
    /\ reducer c h1 VUndef type None = Some (VRef s, h2)
    /\ h2 !! s = Some st
    /\ obj_lookup "mediaType" st = Some (VStr key)
    /\ obj_lookup "orientation" st = Some VNull
    /\ obj_lookup "breakpoints" st = Some (VRef l)
    /\ obj_lookup "is" st = Some (VRef is_)
    /\ h2 !! is_ = Some is_map
    /\ obj_lookup key is_map = Some (VBool true)
    /\ forall name, In name (keys config) -> name <> key ->
         obj_lookup name is_map = Some (VBool false).
Proof.
  intros Hl Hnd Hinit Hxf key.
  destruct (first_call_without_evaluator h l config opts type Hl Hinit Hxf)
    as (c & h1 & s & h2 & lessThan & greaterThan & is_ & F & Hred & Hs & Hbp & _ & _
        & His).
  cbv zeta in Hs, His. fold key in Hs, His.
  assert (Hnd' : List.NoDup (keys (obj_set key (VNum PosInf) config)))
    by now apply NoDup_obj_set.
  exists c, h1, s, h2. do 3 eexists.
  split; [exact F|]. split; [exact Hred|]. split; [exact Hs|].
  split; [reflexivity|]. split; [reflexivity|].
  split; [simpl; now rewrite Hbp|]. split; [reflexivity|]. split; [exact His|].
  split.
  - rewrite getIs_lookup, obj_lookup_set_eq by assumption.
    rewrite (obj_get_Some _ _ _ (obj_lookup_set_eq key (VNum PosInf) config)).
    simpl. now rewrite String.eqb_refl.
  - intros name Hin Hne. rewrite getIs_lookup by assumption.
    rewrite obj_lookup_set_ne by assumption.
    destruct (In_keys_lookup_Some name config Hin) as [v ->].
    apply String.eqb_neq in Hne. now rewrite Hne, Bool.andb_false_r.
Qed.

(** X14. When every breakpoint of the configuration other than the infinity
    name has a finite width, that first state (no evaluator, no
    [initialMediaType], default [extraFields]) says the viewport is wider
    than every configured breakpoint: [greaterThan] is true and [lessThan]
    false at each of them, and both are false at the infinity name. *)
Theorem first_state_is_wider_than_all (h : heap) (l : loc) (config : obj)
    (opts : options) (type : value) :
  h !! l = Some config -> List.NoDup (keys config) ->
  initialMediaType opts = None -> extraFields opts = None ->
  let key := default defaultMediaType (infinity opts) in
  (forall name v, obj_lookup name config = Some v -> name <> key -> is_finite v) ->
  exists c h1 s h2 st lessThan greaterThan lessThan_map greaterThan_map,
    createResponsiveStateReducer h (VRef l) opts = Some (c, h1)
    /\ reducer c h1 VUndef type None = Some (VRef s, h2)
    /\ h2 !! s = Some st
    /\ obj_lookup "lessThan" st = Some (VRef lessThan)
    /\ h2 !! lessThan = Some lessThan_map
    /\ obj_lookup "greaterThan" st = Some (VRef greaterThan)
    /\ h2 !! greaterThan = Some greaterThan_map
    /\ (forall name, In name (keys config) -> name <> key ->
          obj_lookup name lessThan_map = Some (VBool false)
          /\ obj_lookup name greaterThan_map = Some (VBool true))
    /\ obj_lookup key lessThan_map = Some (VBool false)
    /\ obj_lookup key greaterThan_map = Some (VBool false).
Proof.
  intros Hl Hnd Hinit Hxf key Hfin.
  destruct (first_call_without_evaluator h l config opts type Hl Hinit Hxf)
    as (c & h1 & s & h2 & lessThan & greaterThan & is_ & F & Hred & Hs & _ & Hlt
        & Hgt & _).
  cbv zeta in Hs, Hlt, Hgt. fold key in Hs, Hlt, Hgt.
  set (augmented := obj_set key (VNum PosInf) config) in *.
  assert (Hnd' : List.NoDup (keys augmented)) by now apply NoDup_obj_set.
  assert (Hkey : obj_lookup key augmented = Some (VNum PosInf))
    by apply obj_lookup_set_eq.
  assert (Hw : Forall (fun kv => is_width (snd kv)) augmented).
  { apply List.Forall_forall. intros [k v] Hin. simpl.
    apply (In_obj_lookup k v augmented Hnd') in Hin.
    destruct (string_dec k key) as [->|Hne].
    - rewrite Hkey in Hin. injection Hin as <-. now exists PosInf.
    - unfold augmented in Hin. rewrite obj_lookup_set_ne in Hin by assumption.
      destruct (Hfin k v Hin Hne) as [q ->]. now exists (Fin q). }
  pose proof (getOrderMap_NoDup augmented) as Hom.
  destruct (getOrderMap_lookup_Some augmented key _ Hnd' Hkey) as (j & _ & Hj).
  exists c, h1, s, h2. do 5 eexists.
  split; [exact F|]. split; [exact Hred|]. split; [exact Hs|].
  split; [reflexivity|]. split; [exact Hlt|].
  split; [reflexivity|]. split; [exact Hgt|]. split.
  - intros name Hin Hne.
    destruct (In_keys_lookup_Some name config Hin) as [v Hv].
    destruct (Hfin name v Hv Hne) as [q ->].
    assert (Hname : obj_lookup name augmented = Some (VNum (Fin q)))
      by (unfold augmented; now rewrite obj_lookup_set_ne).
    destruct (narrower_lower_rank augmented name key Hnd' Hw)
      as (i & j' & Hi & Hj' & Hij).
    { exists (Fin q), PosInf.
      rewrite (obj_get_Some _ _ _ Hname), (obj_get_Some _ _ _ Hkey).
      now repeat split. }
    assert (j' = j) as -> by (rewrite Hj in Hj'; injection Hj' as E;
                             now apply Nat2Z.inj in E).
    destruct (rank_comparisons key (getOrderMap augmented) j name i Hom Hj Hi)
      as [H1 H2].
    assert (E1 : Nat.ltb j i = false) by (apply Nat.ltb_ge; lia).
    assert (E2 : Nat.ltb i j = true) by now apply Nat.ltb_lt.
    rewrite E1 in H1. rewrite E2 in H2. now split.
  - destruct (rank_comparisons key (getOrderMap augmented) j key j Hom Hj Hj)
      as [H1 H2].
    rewrite Nat.ltb_irrefl in H1, H2. now split.
Qed.

(** ** Widths and strings together *)

Lemma string_compare_lt_trans s1 s2 s3 :
  String.compare s1 s2 = Lt -> String.compare s2 s3 = Lt ->
  String.compare s1 s3 = Lt.
Proof.
  revert s2 s3. induction s1 as [|a s1 IH]; intros [|b s2] [|c s3]; simpl;
    try discriminate; try reflexivity.
  unfold Ascii.compare.
  destruct (N.compare_spec (N_of_ascii a) (N_of_ascii b)) as [E1|L1|G1];
    destruct (N.compare_spec (N_of_ascii b) (N_of_ascii c)) as [E2|L2|G2];
    try discriminate; intros H1 H2.
  - rewrite E1, E2, N.compare_refl. now apply IH with s2.
  - rewrite E1. now apply N.compare_lt_iff in L2 as ->.
  - rewrite <- E2. now apply N.compare_lt_iff in L1 as ->.
  - assert (L : (N_of_ascii a < N_of_ascii c)%N) by lia.
    now apply N.compare_lt_iff in L as ->.
Qed.

Lemma string_compare_refl s : String.compare s s = Eq.
Proof.
  induction s as [|a s IH]; simpl; [reflexivity|].
  unfold Ascii.compare. now rewrite N.compare_refl.
Qed.

Lemma string_ltb_irrefl s : String.ltb s s = false.
Proof. unfold String.ltb. now rewrite string_compare_refl. Qed.

Lemma string_ltb_asym s t : String.ltb s t = true -> String.ltb t s = false.
Proof.
  unfold String.ltb. rewrite (String.compare_antisym t s).
  now destruct (String.compare s t).
Qed.

Lemma string_not_ltb_trans s t u :
  String.ltb s t = false -> String.ltb t u = false -> String.ltb s u = false.
Proof.
  unfold String.ltb. intros Hst Htu.
  destruct (String.compare s u) eqn:Hsu; try reflexivity. exfalso.
  destruct (String.compare s t) eqn:Est; try discriminate.
  - apply String.compare_eq_iff in Est as ->. now rewrite Hsu in Htu.
  - destruct (String.compare t u) eqn:Etu; try discriminate.
    + apply String.compare_eq_iff in Etu as ->. congruence.
    + assert (Hts : String.compare t s = Lt)
        by (rewrite String.compare_antisym, Est; reflexivity).
      assert (Hut : String.compare u t = Lt)
        by (rewrite String.compare_antisym, Etu; reflexivity).
      pose proof (string_compare_lt_trans u t s Hut Hts) as Hus.
      rewrite String.compare_antisym, Hsu in Hus. discriminate.
Qed.

Lemma not_before_trans a b c :
  not_before a b -> not_before b c -> not_before a c.
Proof.
  destruct a as [[| | |x|s]|], b as [[| | |y|t]|], c as [[| | |z|u]|]; simpl;
    try tauto.
  - apply num_ge_trans.
  - apply string_not_ltb_trans.
Qed.

Lemma js_ge_strings s t : js_ge (VStr s) (VStr t) = negb (String.ltb s t).
Proof. unfold js_ge, js_lt_opt. simpl. now destruct (String.ltb s t). Qed.

Lemma sorted_widths_then_strings (bps : obj) :
  Forall (fun kv => is_width_or_string (snd kv)) bps ->
  StronglySorted
    (fun a b => ~ precedes (obj_get bps b) (obj_get bps a))
    (array_sort (compare_keys bps) (keys bps)).
Proof.
  intros Hv.
  pose (D := fun k => In k (keys bps)).
  pose (R := fun t x => not_before (obj_get bps t) (obj_get bps x)).
  assert (HD : forall k, D k -> is_width_or_string (obj_get bps k))
    by (intros k Hk; exact (In_keys_get bps is_width_or_string k Hv Hk)).
  assert (Hs : StronglySorted (flip R) (array_sort (compare_keys bps) (keys bps))).
  { apply (array_sort_sorted (compare_keys bps) D R).
    - intros a b c _ _ _. apply not_before_trans.
    - intros t x Dt Dx Hpos. unfold R.
      destruct (HD t Dt) as [(nt & Ht & Hnt)|[s Ht]],
               (HD x Dx) as [(nx & Hx & Hnx)|[u Hx]].
      + rewrite Ht, Hx. simpl. now apply (compare_keys_widths bps t x).
      + exfalso. unfold compare_keys in Hpos. rewrite Ht, Hx in Hpos.
        simpl in Hpos. lia.
      + rewrite Ht, Hx. exact I.
      + rewrite Ht, Hx. simpl. unfold compare_keys in Hpos.
        rewrite Ht, Hx in Hpos. simpl in Hpos. rewrite js_ge_strings in Hpos.
        destruct (String.ltb s u); [simpl in Hpos; lia|reflexivity].
    - intros t x Dt Dx Hnp. unfold R.
      destruct (HD t Dt) as [(nt & Ht & Hnt)|[s Ht]],
               (HD x Dx) as [(nx & Hx & Hnx)|[u Hx]].
      + rewrite Ht, Hx. simpl.
        destruct (num_lt_defined nt nx Hnt Hnx) as [[|] Hr].
        * now apply num_lt_ge.
        * exfalso. apply Hnp. now apply (compare_keys_widths bps t x nt nx).
      + rewrite Ht, Hx. exact I.
      + exfalso. apply Hnp. unfold compare_keys. rewrite Ht, Hx. simpl. lia.
      + rewrite Ht, Hx. simpl. apply string_ltb_asym.
        destruct (String.ltb s u) eqn:E; [reflexivity|].
        exfalso. apply Hnp. unfold compare_keys. rewrite Ht, Hx. simpl.
        rewrite js_ge_strings, E. simpl. lia.
    - apply List.Forall_forall. now intros k Hk. }
  eapply StronglySorted_weaken; [|exact Hs].
  intros a b _ _. unfold flip, R.
  destruct (obj_get bps b) as [[| | |y|t]|], (obj_get bps a) as [[| | |x|s]|];
    simpl; try tauto.
  - unfold num_ge. congruence.
  - congruence.
Qed.

Lemma precedes_irrefl v : ~ precedes v v.
Proof.
  destruct v as [[| | |x|s]|]; simpl; try tauto.
  - apply num_lt_irrefl.
  - rewrite string_ltb_irrefl. discriminate.
Qed.

Lemma precedes_defined (o : obj) k w :
  precedes (obj_get o k) w -> exists v, obj_lookup k o = Some v.
Proof.
  unfold obj_get. destruct (obj_lookup k o) as [v|]; [eauto|]. simpl. tauto.
Qed.

Lemma precedes_defined_r (o : obj) k v :
  precedes v (obj_get o k) -> exists w, obj_lookup k o = Some w.
Proof.
  unfold obj_get. destruct (obj_lookup k o) as [w|]; [eauto|].
  destruct v as [[| | |x|s]|]; simpl; tauto.
Qed.

(** X15. On a configuration whose values are widths and strings, the ranks
    of [getOrderMap] follow one order: widths by ascending value, then the
    strings, in the order of their character codes.  Whenever the value of
    one breakpoint comes before the value of another in that order, its
    rank is strictly lower. *)
Theorem getOrderMap_orders_widths_then_strings (bps : obj) :
  List.NoDup (keys bps) ->
  Forall (fun kv => is_width_or_string (snd kv)) bps ->
  forall a b,
    precedes (obj_get bps a) (obj_get bps b) ->
    exists i j, obj_lookup a (getOrderMap bps) = Some (rank i)
                /\ obj_lookup b (getOrderMap bps) = Some (rank j)
                /\ i < j.
Proof.
  intros Hnd Hv a b Hab. pose proof (sorted_widths_then_strings bps Hv) as Hs.
  destruct (precedes_defined bps a _ Hab) as [va Ha].
  destruct (precedes_defined_r bps b _ Hab) as [vb Hb].
  destruct (getOrderMap_lookup_Some bps a _ Hnd Ha) as (i & Hi & Hra).
  destruct (getOrderMap_lookup_Some bps b _ Hnd Hb) as (j & Hj & Hrb).
  exists i, j. repeat split; try assumption.
  apply indexOf_lookup in Hi, Hj.
  destruct (Nat.lt_total i j) as [Hlt|[->|Hgt]]; [assumption| |].
  - exfalso. assert (a = b) as -> by congruence.
    exact (precedes_irrefl _ Hab).
  - exfalso. exact (StronglySorted_lookup _ _ j i b a Hs Hj Hi Hgt Hab).
Qed.

(** ** The configuration object after construction *)

(** X16. The reducer keeps the order map it computed at construction but
    reads the configuration object again at every recalculation.  When the
    caller adds a breakpoint to the object after the factory has run, the
    next state (default [extraFields]) has an entry for it in [is] and none
    in [lessThan] and [greaterThan]. *)
Theorem later_breakpoint_reaches_is_only (h : heap) (l : loc) (config : obj)
    (opts : options) (k : string) (v : value) :
  h !! l = Some config -> List.NoDup (keys config) ->
  extraFields opts = None ->
  let key := default defaultMediaType (infinity opts) in
  let augmented := obj_set key (VNum PosInf) config in
  obj_lookup k augmented = None ->
  exists c h1,
    createResponsiveStateReducer h (VRef l) opts = Some (c, h1)
    /\ forall state type matchMedia,
         recalculates state type = true ->
         exists s h2 st is_ lessThan greaterThan is_map lessThan_map
                greaterThan_map,
           reducer c (<[l := obj_set k v augmented]> h1) state type matchMedia
           = Some (VRef s, h2)
           /\ h2 !! s = Some st
           /\ obj_lookup "is" st = Some (VRef is_)
           /\ h2 !! is_ = Some is_map
           /\ obj_lookup "lessThan" st = Some (VRef lessThan)
           /\ h2 !! lessThan = Some lessThan_map
           /\ obj_lookup "greaterThan" st = Some (VRef greaterThan)
           /\ h2 !! greaterThan = Some greaterThan_map
           /\ (exists b, obj_lookup k is_map = Some (VBool b))
           /\ obj_lookup k lessThan_map = None
           /\ obj_lookup k greaterThan_map = None.
Proof.
  intros Hl Hnd Hxf key augmented Hk.
  assert (Hlen : l < length h) by now apply lookup_lt_Some in Hl.
  pose proof (factory_on_object h l config opts Hl) as F. cbv zeta in F.
  fold key in F. fold augmented in F. rewrite Hxf in F. simpl default in F.
  match type of F with _ = Some (?c0, ?h0) => set (c := c0) in *; set (h1 := h0) in * end.
  exists c, h1. split; [exact F|].
  intros state type matchMedia Hrec.
  set (live := obj_set k v augmented).
  assert (Hlive : (<[l := live]> h1) !! c_breakpoints c = Some live).
  { apply list_lookup_insert_eq. unfold h1. now rewrite length_insert. }
  destruct (reducer_default c (<[l := live]> h1) state type matchMedia live
              eq_refl Hrec Hlive)
    as (lessThan & greaterThan & is_ & s & h2 & Hred & Hs & _ & _ & Hlt & Hgt & His).
  cbv zeta in Hred, Hs, Hlt, Hgt, His.
  assert (Hnd1 : List.NoDup (keys augmented)) by now apply NoDup_obj_set.
  assert (Hnd2 : List.NoDup (keys live)) by now apply NoDup_obj_set.
  assert (Hom : obj_lookup k (c_mediaOrdering c) = None).
  { simpl. rewrite getOrderMap_lookup by assumption. now rewrite Hk. }
  exists s, h2. do 7 eexists.
  split; [exact Hred|]. split; [exact Hs|].
  split; [reflexivity|]. split; [exact His|].
  split; [reflexivity|]. split; [exact Hlt|].
  split; [reflexivity|]. split; [exact Hgt|].
  split; [|split].
  - rewrite getIs_lookup by assumption. unfold live at 1.
    rewrite obj_lookup_set_eq. eauto.
  - rewrite getLessThan_lookup by apply getOrderMap_NoDup. now rewrite Hom.
  - rewrite getGreaterThan_lookup by apply getOrderMap_NoDup. now rewrite Hom.
Qed.

End More.

(** ** Closed instances of the further properties *)

Lemma getOrderMap_ranks_enumerate_witness :
  exists i, i < length mixed_config
            /\ obj_lookup "a" (getOrderMap (engine := plain_engine) mixed_config)
               = Some (rank i).
Proof.
  destruct (getOrderMap_ranks_enumerate (engine := plain_engine) mixed_config)
    as [Hall _].
  - distinct_names.
  - apply Hall. simpl. tauto.
Defined.

Lemma comparison_maps_are_boolean_maps_witness :
  boolean_map_of two_ranks (getLessThan (engine := plain_engine) "small" two_ranks).
Proof.
  destruct (comparison_maps_are_boolean_maps (engine := plain_engine)
              "small" two_ranks small_large) as [Hlt _].
  - distinct_names.
  - distinct_names.
  - exact Hlt.
Defined.

Lemma comparison_maps_compare_ranks_witness :
  obj_lookup "large" (getLessThan (engine := plain_engine) "small" two_ranks)
  = Some (VBool (Nat.ltb 0 1)).
Proof.
  destruct (comparison_maps_compare_ranks (engine := plain_engine)
              "small" two_ranks 0) as [Hrank _].
  - distinct_names.
  - reflexivity.
  - apply (Hrank "large" 1). reflexivity.
Defined.

Lemma comparison_maps_of_unknown_type_witness :
  obj_lookup "large" (getLessThan (engine := plain_engine) "medium" two_ranks)
  = Some (VBool false)
  /\ obj_lookup "large" (getGreaterThan (engine := plain_engine) "medium" two_ranks)
     = Some (VBool false).
Proof.
  apply (comparison_maps_of_unknown_type (engine := plain_engine) "medium" two_ranks).
  - distinct_names.
  - reflexivity.
  - simpl. tauto.
Defined.

Lemma getIs_marks_current_only_witness :
  obj_lookup "infinity" (getIs "infinity" small_large_infinity) = Some (VBool true).
Proof.
  destruct (getIs_marks_current_only "infinity" small_large_infinity) as [Hiff _].
  - distinct_names.
  - apply Hiff. split; [reflexivity|].
    exists (VNum PosInf). repeat split.
Defined.

Lemma widths_decide_comparisons_witness :
  obj_lookup "c"
    (getLessThan (engine := plain_engine) "a"
       (getOrderMap (engine := plain_engine) three_widths))
  = Some (VBool true).
Proof.
  destruct (widths_decide_comparisons (engine := plain_engine) three_widths)
    with (narrow := "a") (wide := "c") as [Hlt _].
  - distinct_names.
  - repeat constructor; eexists; (split; [reflexivity|discriminate]).
  - exists (Fin 100), (Fin 300). repeat split.
  - exact Hlt.
Defined.

Lemma getMediaType_answers_witness :
  exists q,
    In (getMediaType (Some (fun _ => VBool true))
          [("small", VStr "q1"); ("large", VStr "q2")] "infinity", q)
       [("small", VStr "q1"); ("large", VStr "q2")]
    /\ truthy (VBool true) = true.
Proof.
  destruct (getMediaType_answers (Some (fun _ => VBool true))
              [("small", VStr "q1"); ("large", VStr "q2")] "infinity")
    as (_ & Hmatch & _).
  apply (Hmatch (fun _ => VBool true) eq_refl).
  exists "small", (VStr "q1"). split; [now left|reflexivity].
Defined.

Lemma factory_shares_defaultBreakpoints_witness :
  exists c1 h1 c2 h2,
    createResponsiveStateReducer (engine := plain_engine)
      (imports := example_imports) module_heap VNull default_options
    = Some (c1, h1)
    /\ createResponsiveStateReducer (engine := plain_engine)
         (imports := example_imports) h1 VUndef
         {| initialMediaType := None; infinity := Some "huge";
            extraFields := None |}
       = Some (c2, h2).
Proof.
  destruct (factory_shares_defaultBreakpoints (engine := plain_engine)
              (imports := example_imports) module_heap defaultBreakpoints
              VNull VUndef default_options
              {| initialMediaType := None; infinity := Some "huge";
                 extraFields := None |})
    as (c1 & h1 & c2 & h2 & shared & F1 & F2 & _).
  - reflexivity.
  - reflexivity.
  - reflexivity.
  - distinct_names.
  - discriminate.
  - reflexivity.
  - exists c1, h1, c2, h2. split; assumption.
Defined.

Lemma factory_twice_same_witness :
  exists c h1,
    createResponsiveStateReducer (engine := plain_engine)
      (imports := example_imports) (module_heap ++ [small_large]) (VRef 1)
      default_options
    = Some (c, h1)
    /\ createResponsiveStateReducer (engine := plain_engine)
         (imports := example_imports) h1 (VRef 1) default_options
       = Some (c, h1).
Proof.
  apply (factory_twice_same (engine := plain_engine) (imports := example_imports)
           (module_heap ++ [small_large]) 1 small_large default_options).
  reflexivity.
Defined.

Lemma recalculation_returns_new_object_witness :
  exists (s : loc) (h' : heap),
    reducer (engine := plain_engine) (imports := example_imports) example_closure
      (module_heap ++ [small_large_infinity]) VUndef (VStr "@@redux/INIT") None
    = Some (VRef s, h')
    /\ (module_heap ++ [small_large_infinity]) !! s = None.
Proof.
  destruct (recalculation_returns_new_object (engine := plain_engine)
              (imports := example_imports) example_closure
              (module_heap ++ [small_large_infinity]) VUndef
              (VStr "@@redux/INIT") None small_large_infinity)
    as (s & h' & st & Hred & _ & Hfresh & _).
  - reflexivity.
  - reflexivity.
  - reflexivity.
  - exists s, h'. split; assumption.
Defined.

Lemma initialMediaType_until_first_state_witness :
  exists s h' st,
    reducer (engine := plain_engine) (imports := example_imports)
      example_closure_initial (module_heap ++ [small_large_infinity]) VUndef
      (VStr "@@redux/INIT") (Some (fun _ => VBool true))
    = Some (VRef s, h')
    /\ h' !! s = Some st
    /\ obj_lookup "mediaType" st = Some (VStr "small").
Proof.
  destruct (initialMediaType_until_first_state (engine := plain_engine)
              (imports := example_imports) example_closure_initial
              (module_heap ++ [small_large_infinity]) small_large_infinity "small")
    as [Hfirst _].
  - reflexivity.
  - discriminate.
  - reflexivity.
  - reflexivity.
  - apply Hfirst; reflexivity.
Defined.

Lemma first_state_is_the_infinity_type_witness :
  exists c h1 s h2,
    createResponsiveStateReducer (engine := plain_engine)
      (imports := example_imports) (module_heap ++ [small_large]) (VRef 1)
      default_options
    = Some (c, h1)
    /\ reducer (engine := plain_engine) (imports := example_imports) c h1 VUndef
         (VStr "@@redux/INIT") None
       = Some (VRef s, h2).
Proof.
  destruct (first_state_is_the_infinity_type (engine := plain_engine)
              (imports := example_imports) (module_heap ++ [small_large]) 1
              small_large default_options (VStr "@@redux/INIT"))
    as (c & h1 & s & h2 & st & is_ & is_map & F & Hred & _).
  - reflexivity.
  - distinct_names.
  - reflexivity.
  - reflexivity.
  - exists c, h1, s, h2. split; assumption.
Defined.

Lemma first_state_is_wider_than_all_witness :
  exists c h1 s h2,
    createResponsiveStateReducer (engine := plain_engine)
      (imports := example_imports) (module_heap ++ [small_large]) (VRef 1)
      default_options
    = Some (c, h1)
    /\ reducer (engine := plain_engine) (imports := example_imports) c h1 VUndef
         (VStr "@@redux/INIT") None
       = Some (VRef s, h2).
Proof.
  destruct (first_state_is_wider_than_all (engine := plain_engine)
              (imports := example_imports) (module_heap ++ [small_large]) 1
              small_large default_options (VStr "@@redux/INIT"))
    as (c & h1 & s & h2 & st & lessThan & greaterThan & lm & gm & F & Hred & _).
  - reflexivity.
  - distinct_names.
  - reflexivity.
  - reflexivity.
  - intros name v Hv _. simpl in Hv.
    destruct (String.eqb name "small"); [injection Hv as <-; now eexists|].
    destruct (String.eqb name "large"); [injection Hv as <-; now eexists|].
    discriminate.
  - exists c, h1, s, h2. split; assumption.
Defined.

Lemma getOrderMap_orders_widths_then_strings_witness :
  let bps := [("p", VStr "print"); ("a", VNum (Fin 100)); ("d", VStr "dark")] in
  exists i j,
    obj_lookup "d" (getOrderMap (engine := plain_engine) bps) = Some (rank i)
    /\ obj_lookup "p" (getOrderMap (engine := plain_engine) bps) = Some (rank j)
    /\ i < j.
Proof.
  intros bps.
  apply (getOrderMap_orders_widths_then_strings (engine := plain_engine) bps).
  - distinct_names.
  - constructor; [right; now eexists|].
    constructor; [left; eexists; split; [reflexivity|discriminate]|].
    constructor; [right; now eexists|]. constructor.
  - reflexivity.
Defined.

Lemma later_breakpoint_reaches_is_only_witness :
  exists c h1,
    createResponsiveStateReducer (engine := plain_engine)
      (imports := example_imports) (module_heap ++ [small_large]) (VRef 1)
      default_options
    = Some (c, h1).
Proof.
  destruct (later_breakpoint_reaches_is_only (engine := plain_engine)
              (imports := example_imports) (module_heap ++ [small_large]) 1
              small_large default_options "medium" (VNum (Fin 992)))
    as (c & h1 & F & _).
  - reflexivity.
  - distinct_names.
  - reflexivity.
  - reflexivity.
  - exists c, h1. exact F.
Defined.
